(** * Sliding puzzle: a shallow embedding of [Sliding_puzzle.py]

    A puzzle is a Python [str]; it is embedded as the list of its
    characters.  The symbols of a puzzle are ASCII, and a character is
    embedded as an [ascii], ordered by its code.  Python integers are embedded as [Z], so that [//], [%] and
    [abs] keep their meaning on every integer, and the operations that can
    raise return a [result].  The interactive loop [play_puzzle] is embedded
    over a console made of the lines still to be read and the texts written
    so far. *)

From Stdlib Require Import ZArith Ascii String.
From stdpp Require Import base numbers list sorting strings pretty relations.

Local Open Scope Z_scope.

(** ** Python values *)

Abbreviation str := (list ascii).

(** String literals of the source, as character lists. *)
Definition lit (s : string) : str := list_ascii_of_string s.

Definition blank_char : ascii := "-"%char.
Definition newline_char : ascii := "010"%char.
Definition space_char : ascii := " "%char.

(** The exceptions the embedded operations can raise. *)
Inductive exn : Type :=
| ValueError
| IndexError
| ZeroDivisionError.

Inductive result (A : Type) : Type :=
| Ok (a : A)
| Raise (e : exn).
Arguments Ok {A} a.
Arguments Raise {A} e.

#[global] Instance result_ret : MRet result := @Ok.
#[global] Instance result_bind : MBind result := λ A B f m,
  match m with
  | Ok a => f a
  | Raise e => Raise e
  end.

Module Py.

(** [len(x)] *)
Definition len {A} (l : list A) : Z := Z.of_nat (length l).

(** [int(math.sqrt(n))] and [int(n ** 0.5)]: the square root is taken in
    double precision and truncated.  For the lengths a string can have
    below 2^52 this is the integer square root. *)
Definition int_sqrt (n : Z) : Z := Z.sqrt n.

(** [a // b] and [a % b] on integers: the quotient is rounded down and the
    remainder has the sign of the divisor, as [Z.div] and [Z.modulo]. *)
Definition floordiv (a b : Z) : result Z :=
  if b =? 0 then Raise ZeroDivisionError else Ok (a / b).
Definition modulo (a b : Z) : result Z :=
  if b =? 0 then Raise ZeroDivisionError else Ok (a mod b).

(** [s.startswith(sub)] *)
Fixpoint startswith (s sub : str) {struct sub} : bool :=
  match sub, s with
  | [], _ => true
  | _ :: _, [] => false
  | a :: sub', b :: s' => bool_decide (a = b) && startswith s' sub'
  end.

(** [s.find(sub)]: the lowest index at which [sub] starts in [s]. *)
Fixpoint find (s sub : str) : option nat :=
  if startswith s sub then Some 0%nat
  else match s with
       | [] => None
       | _ :: s' => S <$> find s' sub
       end.

(** [s.index(sub)]: as [find], but raises [ValueError] when absent. *)
Definition index (s sub : str) : result Z :=
  match find s sub with
  | Some i => Ok (Z.of_nat i)
  | None => Raise ValueError
  end.

(** [s.replace(old, new)] for a one-character [old]. *)
Definition replace_char (s : str) (old : ascii) (new : str) : str :=
  flat_map (λ c, if bool_decide (c = old) then new else [c]) s.

(** Iterating over a string (as [list(s)], [sorted(s)] and [sep.join(s)]
    do) yields its characters as one-character strings. *)
Definition chars (s : str) : list str := map (λ c, [c]) s.

(** The order of [<=] on one-character strings: code points. *)
Definition code_le (a b : ascii) : Prop := (N_of_ascii a <= N_of_ascii b)%N.

#[global] Instance code_le_dec : RelDecision code_le :=
  λ a b, decide ((N_of_ascii a <= N_of_ascii b)%N).

(** [sorted(s)] for a string [s]: its characters in ascending order.  The
    sort of the source is stable; characters that compare equal are equal,
    so the result does not depend on the algorithm. *)
Definition sorted (s : str) : list str := chars (merge_sort code_le s).

(** [sep.join(parts)] *)
Fixpoint join (sep : str) (parts : list str) : str :=
  match parts with
  | [] => []
  | [x] => x
  | x :: rest => x ++ sep ++ join sep rest
  end.

(** A slice bound is taken from the end when negative and clipped to the
    sequence. *)
Definition clip (n i : Z) : nat :=
  Z.to_nat (if i <? 0 then Z.max (i + n) 0 else Z.min i n).

(** [l[lo:hi]] *)
Definition slice {A} (l : list A) (lo hi : Z) : list A :=
  let a := clip (len l) lo in
  let b := clip (len l) hi in
  take (b - a) (drop a l).

(** The position an index denotes, or [IndexError]. *)
Definition position (n i : Z) : result nat :=
  let j := if i <? 0 then i + n else i in
  if (0 <=? j) && (j <? n) then Ok (Z.to_nat j) else Raise IndexError.

(** [l[i]] *)
Definition getitem {A} (l : list A) (i : Z) : result A :=
  k ← position (len l) i;
  match l !! k with
  | Some x => Ok x
  | None => Raise IndexError
  end.

(** [l[i] = x], on the list held by the variable. *)
Definition setitem {A} (l : list A) (i : Z) (x : A) : result (list A) :=
  k ← position (len l) i;
  Ok (<[k:=x]> l).

(** [range(start, stop, step)] as the list of its elements. *)
Definition range (start stop step : Z) : result (list Z) :=
  if step =? 0 then Raise ValueError
  else
    let n :=
      if (0 <? step) && (start <? stop) then 1 + (stop - 1 - start) / step
      else if (step <? 0) && (stop <? start) then 1 + (start - 1 - stop) / (- step)
      else 0 in
    Ok (map (λ k, start + Z.of_nat k * step) (seq 0 (Z.to_nat n))).

End Py.

(** ** The functions of the source *)

Definition rows_from_puzzle (puzzle : str) : result str :=
  let size := Py.int_sqrt (Py.len puzzle) in
  starts ← Py.range 0 (Py.len puzzle) size;
  let rows := map (λ i, Py.slice puzzle i (i + size)) starts in
  Ok (Py.join [newline_char] rows).

Definition is_solved (puzzle : str) : bool :=
  let sorted_puzzle :=
    Py.join [] (Py.sorted (Py.replace_char puzzle blank_char [])) ++ [blank_char] in
  bool_decide (puzzle = sorted_puzzle)
  || bool_decide (puzzle = [blank_char] ++ Py.slice sorted_puzzle 0 (-1)).

Definition is_legal_move (puzzle tile_to_move : str) : result bool :=
  if bool_decide (tile_to_move = [blank_char]) then Ok false
  else
    let size := Py.int_sqrt (Py.len puzzle) in
    empty_idx ← Py.index puzzle [blank_char];
    tile_idx ← Py.index puzzle tile_to_move;
    tile_row ← Py.floordiv tile_idx size;
    empty_row ← Py.floordiv empty_idx size;
    let row_diff := Z.abs (tile_row - empty_row) in
    tile_col ← Py.modulo tile_idx size;
    empty_col ← Py.modulo empty_idx size;
    let col_diff := Z.abs (tile_col - empty_col) in
    Ok ((row_diff =? 1) && (col_diff =? 0) || (row_diff =? 0) && (col_diff =? 1)).

Definition puzzle_with_move (puzzle tile_to_move : str) : result str :=
  if bool_decide (tile_to_move = [blank_char]) then Ok puzzle
  else
    let size := Py.int_sqrt (Py.len puzzle) in
    empty_idx ← Py.index puzzle [blank_char];
    tile_idx ← Py.index puzzle tile_to_move;
    let puzzle_list := Py.chars puzzle in
    from_tile ← Py.getitem puzzle_list tile_idx;
    from_empty ← Py.getitem puzzle_list empty_idx;
    puzzle_list ← Py.setitem puzzle_list empty_idx from_tile;
    puzzle_list ← Py.setitem puzzle_list tile_idx from_empty;
    Ok (Py.join [] puzzle_list).

Definition space_puzzle (puzzle : str) : result str :=
  rows ← rows_from_puzzle puzzle;
  Ok ([space_char] ++ Py.join [space_char] (Py.chars rows)).

(** ** Puzzle states and the vocabulary of the specification *)

Local Open Scope nat_scope.

(** A symbol is a digit, a capital letter or the blank marker. *)
Definition is_symbol (c : ascii) : bool :=
  let n := N_of_ascii c in
  ((48 <=? n) && (n <=? 57))%N || ((65 <=? n) && (n <=? 90))%N
  || bool_decide (c = blank_char).

(** Number of occurrences of a symbol in a state. *)
Definition count (c : ascii) (p : str) : nat :=
  length (filter (λ x, x = c) p).

(** A valid state has 4, 9, 16, 25 or 36 symbols, exactly one of them the
    blank marker. *)
Definition valid_state (p : str) : bool :=
  bool_decide (length p ∈ [4; 9; 16; 25; 36])
  && forallb is_symbol p
  && bool_decide (count blank_char p = 1).

(** [leftmost c p i]: position [i] is the first one of [p] holding [c]. *)
Definition leftmost (c : ascii) (p : str) (i : nat) : Prop :=
  p !! i = Some c ∧ ∀ k, k < i → p !! k ≠ Some c.

(** Grid cell of an index on a board with [n] columns. *)
Definition row (n i : nat) : nat := i / n.
Definition col (n i : nat) : nat := i mod n.

(** Two cells are orthogonally adjacent when they are one row apart in the
    same column or one column apart in the same row. *)
Definition orth_adjacent (n i j : nat) : Prop :=
  ((row n i = S (row n j) ∨ row n j = S (row n i)) ∧ col n i = col n j)
  ∨ ((col n i = S (col n j) ∨ col n j = S (col n i)) ∧ row n i = row n j).

(** The non-blank symbols of a state, in their order. *)
Definition tiles (p : str) : str := filter (λ c, c ≠ blank_char) p.

(** [sorted_tiles p s]: [s] is the non-blank symbols of [p] put in ascending
    code-point order. *)
Definition sorted_tiles (p s : str) : Prop :=
  s ≡ₚ tiles p ∧ Sorted Py.code_le s.

(** The [k]-th chunk of [n] symbols. *)
Definition chunk (n : nat) (p : str) (k : nat) : str := take n (drop (k * n) p).

(** The first [m] chunks of [n] symbols. *)
Definition chunks (n m : nat) (p : str) : list str := map (chunk n p) (seq 0 m).

(** Splitting a text at every occurrence of a separator character, the
    reverse of joining: an empty text gives one empty piece. *)
Fixpoint split_at (sep : ascii) (s : str) : list str :=
  match s with
  | [] => [[]]
  | c :: s' =>
      if bool_decide (c = sep) then [] :: split_at sep s'
      else match split_at sep s' with
           | [] => [[c]]
           | piece :: pieces => (c :: piece) :: pieces
           end
  end.

(** Deleting the newline characters of a text. *)
Definition without_newlines (s : str) : str := filter (λ c, c ≠ newline_char) s.

(** The state after the symbols at positions [i] and [j] changed places. *)
Definition exchanged (i j : nat) (p : str) : str :=
  match p !! i, p !! j with
  | Some a, Some b => <[i:=b]> (<[j:=a]> p)
  | _, _ => p
  end.

(** A row with a space put before each of its symbols. *)
Definition spaced_row (r : str) : str := flat_map (λ c, [space_char; c]) r.

(** The spaced rendering as the specification words it: a space before every
    symbol of every row, one more space in front of the first line, the rows
    separated by newlines. *)
Definition spaced_as_specified (n : nat) (p : str) : str :=
  [space_char] ++ Py.join [newline_char] (map spaced_row (chunks n n p)).

(** The last expression of [is_legal_move], as the source writes it on the
    integers [size], [tile_idx] and [empty_idx]. *)
Definition adjacent_test (size tile_idx empty_idx : Z) : bool :=
  let row_diff := Z.abs (tile_idx / size - empty_idx / size)%Z in
  let col_diff := Z.abs (tile_idx mod size - empty_idx mod size)%Z in
  ((row_diff =? 1)%Z && (col_diff =? 0)%Z)
  || ((row_diff =? 0)%Z && (col_diff =? 1)%Z).

(** Applying a move and then the same move again. *)
Definition move_twice (p tile : str) : result str :=
  p' ← puzzle_with_move p tile;
  puzzle_with_move p' tile.

(** ** The console and the game loop *)

Module Console.

(** The console: the lines that [input] has still to read, and what was
    written to the output, one entry for each call that wrote. *)
Record world : Type := World { stdin : list str; stdout : list str }.

(** How a run stops without returning: an exception of the puzzle
    functions, the [EOFError] of [input], or the step bound of the embedding
    of a [while] loop. *)
Inductive failure : Type :=
| Raised (e : exn)
| RaisedEOFError
| OutOfFuel.

(** A statement acting on the console. *)
Definition io (A : Type) : Type := world → (A + failure) * world.

#[global] Instance io_ret : MRet io := λ A a w, (inl a, w).
#[global] Instance io_bind : MBind io := λ A B f m w,
  match m w with
  | (inl a, w') => f a w'
  | (inr e, w') => (inr e, w')
  end.

(** A call to one of the puzzle functions. *)
Definition call {A} (r : result A) : io A := λ w,
  match r with
  | Ok a => (inl a, w)
  | Raise e => (inr (Raised e), w)
  end.

Definition out_of_fuel {A} : io A := λ w, (inr OutOfFuel, w).

(** [print(text)] writes the text and a newline. *)
Definition print (text : str) : io unit := λ w,
  (inl tt, World (stdin w) (stdout w ++ [text ++ [newline_char]])).

(** [input(prompt)] writes the prompt, then reads a line, without its
    newline; at the end of the input it raises [EOFError]. *)
Definition input (prompt : str) : io str := λ w,
  match stdin w with
  | [] => (inr RaisedEOFError, World [] (stdout w ++ [prompt]))
  | line :: rest => (inl line, World rest (stdout w ++ [prompt]))
  end.

End Console.

(** [str(n)] for an integer, as an f-string formats it. *)
Definition str_of_int (n : Z) : str := lit (pretty n).

Definition tile_prompt : str :=
  lit "Which tile would you like to move into the empty spot? ".

(** The inner loop of [play_puzzle],
    [while not is_legal_move(puzzle, tile_to_move): tile_to_move = input(...)],
    run for at most [fuel] tests; it returns the value of [tile_to_move]. *)
Fixpoint ask_tile (fuel : nat) (puzzle tile_to_move : str) : Console.io str :=
  match fuel with
  | O => Console.out_of_fuel
  | S fuel =>
      legal ← Console.call (is_legal_move puzzle tile_to_move);
      if negb legal then
        tile_to_move ← Console.input tile_prompt;
        ask_tile fuel puzzle tile_to_move
      else mret tile_to_move
  end.

(** The outer loop of [play_puzzle], [while not is_solved(puzzle): ...], run
    for at most [fuel] tests; it returns the values of [puzzle] and
    [moves]. *)
Fixpoint play_loop (fuel : nat) (puzzle : str) (moves : Z) : Console.io (str * Z) :=
  match fuel with
  | O => Console.out_of_fuel
  | S fuel' =>
      if negb (is_solved puzzle) then
        spaced ← Console.call (space_puzzle puzzle);
        _ ← Console.print
              ([newline_char] ++ lit "Current puzzle state:" ++ [newline_char]
               ++ spaced);
        let tile_to_move := [blank_char] in
        let moves := (moves + 1)%Z in
        _ ← Console.print (lit "Move #" ++ str_of_int moves);
        tile_to_move ← ask_tile fuel puzzle tile_to_move;
        puzzle ← Console.call (puzzle_with_move puzzle tile_to_move);
        play_loop fuel' puzzle moves
      else mret (puzzle, moves)
  end.

(** [play_puzzle(puzzle)].  Every pass of either loop but the last reads a
    line, so one test more than there are lines to read is enough for both
    loops. *)
Definition play_puzzle (puzzle : str) : Console.io unit := λ w,
  let fuel := S (length (Console.stdin w)) in
  (end_state ← play_loop fuel puzzle 0%Z;
   let puzzle := end_state.1 in
   let moves := end_state.2 in
   spaced ← Console.call (space_puzzle puzzle);
   _ ← Console.print ([newline_char] ++ lit "Solved!" ++ [newline_char] ++ spaced);
   Console.print (lit "You solved the puzzle in " ++ str_of_int moves ++ lit " moves!"))
    w.

(** ** Further vocabulary *)

(** [t] occurs in [p] as a substring. *)
Definition occurs (t p : str) : Prop := ∃ pre post, p = pre ++ t ++ post.

(** One turn of the game: some answer passes [is_legal_move] and
    [puzzle_with_move] applies it. *)
Definition legal_step (p p' : str) : Prop :=
  ∃ t, is_legal_move p t = Ok true ∧ puzzle_with_move p t = Ok p'.

(** Deleting the space characters of a text. *)
Definition without_spaces (s : str) : str := filter (λ c, c ≠ space_char) s.

(** The console once a pass of the outer loop has shown the state, whose
    rendering is [spaced], and the number [m] of the move. *)
Definition announced (spaced : str) (m : Z) (w : Console.world) : Console.world :=
  Console.World (Console.stdin w)
    ((Console.stdout w
      ++ [([newline_char] ++ lit "Current puzzle state:" ++ [newline_char] ++ spaced)
          ++ [newline_char]])
     ++ [(lit "Move #" ++ str_of_int m) ++ [newline_char]]).

(** The two lines written when the game is over. *)
Definition solved_report (spaced : str) (m : Z) : list str :=
  [([newline_char] ++ lit "Solved!" ++ [newline_char] ++ spaced) ++ [newline_char];
   (lit "You solved the puzzle in " ++ str_of_int m ++ lit " moves!")
   ++ [newline_char]].

(** [advanced w w' consumed written]: the console [w'] is [w] after the
    lines [consumed] were read and the texts [written] were written. *)
Definition advanced (w w' : Console.world) (consumed written : list str) : Prop :=
  Console.stdin w = consumed ++ Console.stdin w'
  ∧ Console.stdout w' = Console.stdout w ++ written.

(** [game_run p answers q m]: from the state [p], the lines [answers], read
    in order, play the game to its end.  Each turn is a run of answers that
    [is_legal_move] turns down, followed by one that it accepts and that
    [puzzle_with_move] applies; after [m] turns the state [q] is solved. *)
Inductive game_run : str → list str → str → nat → Prop :=
| game_over p :
    is_solved p = true → game_run p [] p 0
| game_turn p rejected t p' answers q m :
    is_solved p = false →
    Forall (λ x, is_legal_move p x = Ok false) rejected →
    is_legal_move p t = Ok true →
    puzzle_with_move p t = Ok p' →
    game_run p' answers q m →
    game_run p (rejected ++ t :: answers) q (S m).

(** ** The doctests of the source *)

Example rows_from_puzzle_3 :
  rows_from_puzzle (lit "12345678-")
  = Ok (lit "123" ++ [newline_char] ++ lit "456" ++ [newline_char] ++ lit "78-").
Proof. vm_compute. reflexivity. Qed.

Example rows_from_puzzle_2 :
  rows_from_puzzle (lit "12-3") = Ok (lit "12" ++ [newline_char] ++ lit "-3").
Proof. vm_compute. reflexivity. Qed.

Example rows_from_puzzle_4 :
  rows_from_puzzle (lit "123456789ABCDEF-")
  = Ok (lit "1234" ++ [newline_char] ++ lit "5678" ++ [newline_char]
        ++ lit "9ABC" ++ [newline_char] ++ lit "DEF-").
Proof. vm_compute. reflexivity. Qed.

Example is_solved_doctests :
  is_solved (lit "13245678-") = false ∧ is_solved (lit "12345678-") = true
  ∧ is_solved (lit "-12345678") = true ∧ is_solved (lit "321-") = false
  ∧ is_solved (lit "123-") = true.
Proof. vm_compute. auto. Qed.

Example is_legal_move_doctests :
  is_legal_move (lit "12345678-") (lit "8") = Ok true
  ∧ is_legal_move (lit "12345678-") (lit "6") = Ok true
  ∧ is_legal_move (lit "12345678-") (lit "5") = Ok false
  ∧ is_legal_move (lit "12345678-") (lit "-") = Ok false
  ∧ is_legal_move (lit "123456789ABCDEF-") (lit "F") = Ok true
  ∧ is_legal_move (lit "123456789ABCDEF-") (lit "E") = Ok false.
Proof. vm_compute. auto 10. Qed.

Example puzzle_with_move_doctests :
  puzzle_with_move (lit "12345678-") (lit "8") = Ok (lit "1234567-8")
  ∧ puzzle_with_move (lit "123-45678") (lit "3") = Ok (lit "12-345678")
  ∧ puzzle_with_move (lit "123456789ABCDEF-") (lit "F") = Ok (lit "123456789ABCDE-F")
  ∧ puzzle_with_move (lit "12-34") (lit "2") = Ok (lit "1-234").
Proof. vm_compute. auto 10. Qed.

Example space_puzzle_doctest :
  space_puzzle (lit "12345678-")
  = Ok (lit " 1 2 3 " ++ [newline_char] ++ lit " 4 5 6 " ++ [newline_char] ++ lit " 7 8 -").
Proof. vm_compute. reflexivity. Qed.

(** ** Facts about the Python operations *)

Section py_facts.
Implicit Types (s p : str) (c : ascii) (i j k : nat).

Lemma bind_Ok {A B} (f : A → result B) (a : A) : Ok a ≫= f = f a.
Proof. reflexivity. Qed.

Lemma startswith_char s c :
  Py.startswith s [c] = bool_decide (head s = Some c).
Proof.
  destruct s as [|b s]; simpl; [done|].
  rewrite andb_true_r. apply bool_decide_ext. naive_solver.
Qed.

(** Looking up a one-character string finds the leftmost position of the
    character. *)
Lemma find_char_Some s c i :
  Py.find s [c] = Some i ↔ leftmost c s i.
Proof.
  revert i. induction s as [|b s IH]; intros i.
  - split; [done|]. intros [? _]. done.
  - cbn [Py.find]. rewrite startswith_char. simpl.
    case_bool_decide as Hb.
    + injection Hb as ->. split.
      * intros [= <-]. split; [done|]. intros k Hk. lia.
      * intros [Hi Hmin]. destruct i as [|i]; [done|].
        exfalso. apply (Hmin 0); [lia|done].
    + split.
      * destruct (Py.find s [c]) as [i'|] eqn:Hf; [|done].
        intros [= <-]. destruct (proj1 (IH i') eq_refl) as [Hi Hmin].
        split; [done|].
        intros [|k] Hk; simpl; [congruence|]. apply Hmin. lia.
      * intros [Hi Hmin]. destruct i as [|i]; simpl in Hi; [congruence|].
        assert (Py.find s [c] = Some i) as ->; [|done].
        apply IH. split; [done|]. intros k Hk. apply (Hmin (S k)). lia.
Qed.

Lemma find_char_None s c : Py.find s [c] = None ↔ c ∉ s.
Proof.
  induction s as [|b s IH].
  - split; [intros _; apply not_elem_of_nil|done].
  - cbn [Py.find]. rewrite startswith_char. simpl.
    rewrite not_elem_of_cons. case_bool_decide as Hb.
    + injection Hb as ->. split; [done|]. intros [Hne _]. done.
    + assert (c ≠ b) by congruence.
      destruct (Py.find s [c]); simpl; split; try done.
      * intros [_ Hs]. by apply IH in Hs.
      * intros _. split; [done|]. by apply IH.
Qed.

Lemma leftmost_exists s c : c ∈ s → ∃ i, leftmost c s i.
Proof.
  intros Hin. destruct (Py.find s [c]) as [i|] eqn:Hf.
  - exists i. by apply find_char_Some.
  - by apply find_char_None in Hf.
Qed.

Lemma leftmost_unique s c i j : leftmost c s i → leftmost c s j → i = j.
Proof.
  intros Hi Hj. apply find_char_Some in Hi, Hj. congruence.
Qed.

Lemma leftmost_lt s c i : leftmost c s i → i < length s.
Proof. intros [Hi _]. by eapply lookup_lt_Some. Qed.

Lemma index_leftmost s c i :
  leftmost c s i → Py.index s [c] = Ok (Z.of_nat i).
Proof. intros Hi. unfold Py.index. apply find_char_Some in Hi. by rewrite Hi. Qed.

Lemma index_absent s c : c ∉ s → Py.index s [c] = Raise ValueError.
Proof. intros Hc. unfold Py.index. apply find_char_None in Hc. by rewrite Hc. Qed.

Lemma join_empty_chars s : Py.join [] (Py.chars s) = s.
Proof.
  induction s as [|a [|b s] IH]; [done..|].
  change (Py.join [] (Py.chars (a :: b :: s)))
    with (a :: Py.join [] (Py.chars (b :: s))).
  by rewrite IH.
Qed.

Lemma chars_lookup s k : Py.chars s !! k = (λ c, [c]) <$> s !! k.
Proof. apply list_lookup_fmap. Qed.

Lemma chars_insert s k c : <[k:=[c]]> (Py.chars s) = Py.chars (<[k:=c]> s).
Proof. unfold Py.chars. symmetry. apply (list_fmap_insert (λ c, [c])). Qed.

Lemma position_in_range (n : Z) k :
  (Z.of_nat k < n)%Z → Py.position n (Z.of_nat k) = Ok k.
Proof.
  intros Hk. unfold Py.position.
  destruct (Z.ltb_spec (Z.of_nat k) 0); [lia|].
  destruct (Z.leb_spec 0 (Z.of_nat k)); [|lia].
  destruct (Z.ltb_spec (Z.of_nat k) n); [|lia].
  simpl. by rewrite Nat2Z.id.
Qed.

Lemma getitem_chars s k c :
  s !! k = Some c → Py.getitem (Py.chars s) (Z.of_nat k) = Ok [c].
Proof.
  intros Hk. unfold Py.getitem.
  rewrite position_in_range.
  - rewrite bind_Ok, chars_lookup, Hk. done.
  - unfold Py.len, Py.chars. rewrite length_map.
    apply lookup_lt_Some in Hk. lia.
Qed.

Lemma setitem_chars s k c :
  k < length s →
  Py.setitem (Py.chars s) (Z.of_nat k) [c] = Ok (Py.chars (<[k:=c]> s)).
Proof.
  intros Hk. unfold Py.setitem.
  rewrite position_in_range.
  - by rewrite bind_Ok, chars_insert.
  - unfold Py.len, Py.chars. rewrite length_map. lia.
Qed.

Lemma size_of_square p (n : nat) :
  length p = n * n → Py.int_sqrt (Py.len p) = Z.of_nat n.
Proof.
  intros Hp. unfold Py.int_sqrt, Py.len. rewrite Hp, Nat2Z.inj_mul.
  apply Z.sqrt_square. lia.
Qed.

End py_facts.

(** ** Valid states *)

Section valid_facts.
Implicit Types (s p : str) (c : ascii) (i j k n : nat).

Lemma valid_state_unfold p :
  valid_state p = true →
  length p ∈ [4; 9; 16; 25; 36] ∧ Forall (λ c, is_symbol c = true) p
  ∧ count blank_char p = 1.
Proof.
  unfold valid_state. rewrite !andb_true_iff, !bool_decide_eq_true.
  intros [[Hlen Hsym] Hcnt]. repeat split; try done.
  apply Forall_forall. intros c Hc.
  eapply forallb_forall in Hsym; [done|]. by apply list_elem_of_In.
Qed.

Lemma valid_side p :
  valid_state p = true → ∃ n, 2 ≤ n ≤ 6 ∧ length p = n * n.
Proof.
  intros (Hlen & _ & _)%valid_state_unfold.
  repeat (apply elem_of_cons in Hlen as [Hlen|Hlen]);
    [exists 2|exists 3|exists 4|exists 5|exists 6|by apply elem_of_nil in Hlen];
    rewrite Hlen; split; lia || reflexivity.
Qed.

Lemma side_unique n m : n * n = m * m → n = m.
Proof. nia. Qed.

Lemma count_cons c a p :
  count c (a :: p) = if decide (a = c) then S (count c p) else count c p.
Proof. unfold count. rewrite filter_cons. by destruct (decide (a = c)). Qed.

Lemma count_pos c p : 0 < count c p ↔ c ∈ p.
Proof.
  unfold count. split.
  - intros Hlen. destruct (filter (λ x, x = c) p) as [|a l] eqn:Hf; simpl in *; [lia|].
    assert (a ∈ filter (λ x, x = c) p) as Ha by (rewrite Hf; left).
    apply list_elem_of_filter in Ha as [-> Ha]. done.
  - intros Hc.
    assert (c ∈ filter (λ x, x = c) p) as Hin by (by apply list_elem_of_filter).
    destruct (filter (λ x, x = c) p); [by apply elem_of_nil in Hin|simpl; lia].
Qed.

Lemma count_zero c p : count c p = 0 ↔ c ∉ p.
Proof. rewrite <- count_pos. lia. Qed.

(** A symbol counted once sits at one position only. *)
Lemma count_one_position c p i j :
  count c p = 1 → p !! i = Some c → p !! j = Some c → i = j.
Proof.
  revert i j. induction p as [|a p IH]; intros i j Hcnt Hi Hj; [done|].
  rewrite count_cons in Hcnt. destruct (decide (a = c)) as [->|Hne].
  - assert (c ∉ p) as Hnot by (apply count_zero; lia).
    destruct i as [|i], j as [|j]; simpl in *; try done;
      exfalso; apply Hnot; by eapply list_elem_of_lookup_2.
  - destruct i as [|i], j as [|j]; simpl in *; try congruence.
    f_equal. by apply IH.
Qed.

(** A symbol counted at least twice has a copy after its leftmost one. *)
Lemma count_two_positions c p i :
  2 ≤ count c p → leftmost c p i → ∃ k, i < k ∧ p !! k = Some c.
Proof.
  revert i. induction p as [|a p IH]; intros i Hcnt [Hi Hmin].
  - done.
  - rewrite count_cons in Hcnt. destruct i as [|i]; simpl in Hi.
    + injection Hi as ->. rewrite decide_True in Hcnt by done.
      assert (c ∈ p) as Hin by (apply count_pos; lia).
      apply list_elem_of_lookup in Hin as [k Hk].
      exists (S k). split; [lia|done].
    + assert (a ≠ c) as Hne.
      { intros ->. apply (Hmin 0); [lia|done]. }
      rewrite decide_False in Hcnt by done.
      destruct (IH i Hcnt) as (k & Hlt & Hk).
      { split; [done|]. intros k Hk. apply (Hmin (S k)). lia. }
      exists (S k). split; [lia|done].
Qed.

Lemma valid_blank_position p :
  valid_state p = true → ∃ j, leftmost blank_char p j.
Proof.
  intros (_ & _ & Hcnt)%valid_state_unfold.
  apply leftmost_exists, count_pos. lia.
Qed.

Lemma valid_blank_unique p j k :
  valid_state p = true →
  p !! j = Some blank_char → p !! k = Some blank_char → j = k.
Proof.
  intros (_ & _ & Hcnt)%valid_state_unfold. by apply count_one_position.
Qed.

Lemma valid_symbols p c :
  valid_state p = true → c ∈ p → is_symbol c = true.
Proof.
  intros (_ & Hsym & _)%valid_state_unfold Hc.
  by eapply Forall_forall in Hsym.
Qed.

Lemma valid_no_newline p : valid_state p = true → newline_char ∉ p.
Proof. intros Hv Hc. by apply (valid_symbols _ _ Hv) in Hc. Qed.

End valid_facts.

(** ** Closed forms of the two move functions *)

Section move_facts.
Implicit Types (s p : str) (c : ascii) (i j k n : nat).

Lemma char_not_blank c : c ≠ blank_char → [c] ≠ [blank_char].
Proof. congruence. Qed.

(** On a tile found at [i] with the blank at [j], the applicator writes the
    tile at [j] and then the blank at [i]. *)
Lemma puzzle_with_move_leftmost p c i j :
  c ≠ blank_char → leftmost c p i → leftmost blank_char p j →
  puzzle_with_move p [c] = Ok (<[i:=blank_char]> (<[j:=c]> p)).
Proof.
  intros Hc Hi Hj. unfold puzzle_with_move.
  rewrite bool_decide_eq_false_2 by by apply char_not_blank.
  cbv zeta.
  rewrite (index_leftmost _ _ _ Hj), bind_Ok.
  rewrite (index_leftmost _ _ _ Hi), bind_Ok.
  rewrite (getitem_chars _ _ _ (proj1 Hi)), bind_Ok.
  rewrite (getitem_chars _ _ _ (proj1 Hj)), bind_Ok.
  rewrite setitem_chars, bind_Ok by by eapply leftmost_lt.
  rewrite setitem_chars, bind_Ok
    by (rewrite length_insert; by eapply leftmost_lt).
  by rewrite join_empty_chars.
Qed.

Lemma puzzle_with_move_absent p c :
  c ≠ blank_char → c ∉ p → blank_char ∈ p →
  puzzle_with_move p [c] = Raise ValueError.
Proof.
  intros Hc Hnot Hb. unfold puzzle_with_move.
  rewrite bool_decide_eq_false_2 by by apply char_not_blank.
  cbv zeta. destruct (leftmost_exists _ _ Hb) as [j Hj].
  rewrite (index_leftmost _ _ _ Hj), bind_Ok.
  by rewrite index_absent.
Qed.

Lemma adjacent_test_spec n i j :
  adjacent_test (Z.of_nat n) (Z.of_nat i) (Z.of_nat j) = true
  ↔ orth_adjacent n i j.
Proof.
  unfold adjacent_test, orth_adjacent, row, col. cbv zeta.
  rewrite <- !Nat2Z.inj_div, <- !Nat2Z.inj_mod.
  rewrite orb_true_iff, !andb_true_iff, !Z.eqb_eq. lia.
Qed.

Lemma is_legal_move_leftmost p c n i j :
  c ≠ blank_char → 0 < n → length p = n * n →
  leftmost c p i → leftmost blank_char p j →
  is_legal_move p [c] = Ok (adjacent_test (Z.of_nat n) (Z.of_nat i) (Z.of_nat j)).
Proof.
  intros Hc Hn Hlen Hi Hj. unfold is_legal_move.
  rewrite bool_decide_eq_false_2 by by apply char_not_blank.
  cbv zeta. rewrite (size_of_square _ _ Hlen).
  rewrite (index_leftmost _ _ _ Hj), bind_Ok.
  rewrite (index_leftmost _ _ _ Hi), bind_Ok.
  unfold Py.floordiv, Py.modulo.
  destruct (Z.eqb_spec (Z.of_nat n) 0) as [?|_]; [lia|].
  by rewrite !bind_Ok.
Qed.

Lemma is_legal_move_absent p c :
  c ≠ blank_char → c ∉ p → blank_char ∈ p →
  is_legal_move p [c] = Raise ValueError.
Proof.
  intros Hc Hnot Hb. unfold is_legal_move.
  rewrite bool_decide_eq_false_2 by by apply char_not_blank.
  cbv zeta. destruct (leftmost_exists _ _ Hb) as [j Hj].
  rewrite (index_leftmost _ _ _ Hj), bind_Ok.
  by rewrite index_absent.
Qed.

Lemma is_legal_move_blank p : is_legal_move p [blank_char] = Ok false.
Proof. unfold is_legal_move. by rewrite bool_decide_eq_true_2. Qed.

(** A legal answer needs a tile that is a symbol of the state. *)
Lemma is_legal_move_true_inv p c :
  is_legal_move p [c] = Ok true → c ≠ blank_char ∧ c ∈ p.
Proof.
  intros Hm. split.
  - intros ->. by rewrite is_legal_move_blank in Hm.
  - destruct (decide (c ∈ p)) as [|Hnot]; [done|]. exfalso.
    assert (c ≠ blank_char) as Hc.
    { intros ->. by rewrite is_legal_move_blank in Hm. }
    unfold is_legal_move in Hm.
    rewrite bool_decide_eq_false_2 in Hm by by apply char_not_blank.
    cbv zeta in Hm. destruct (Py.index p [blank_char]); [|done].
    rewrite bind_Ok in Hm. by rewrite index_absent in Hm.
Qed.

End move_facts.

(** ** Sorting, joining and slicing *)

Section solved_facts.
Implicit Types (s p : str) (c : ascii) (i j k n : nat).

(** The order on code points is a total order. *)
Lemma code_le_total : Total Py.code_le.
Proof. intros a b. unfold Py.code_le. lia. Qed.

Lemma code_le_trans : Transitive Py.code_le.
Proof. intros a b c. unfold Py.code_le. lia. Qed.

Lemma code_le_antisymm : AntiSymm (=) Py.code_le.
Proof.
  intros a b Hab Hba. unfold Py.code_le in *.
  rewrite <- (ascii_N_embedding a), <- (ascii_N_embedding b).
  f_equal. lia.
Qed.

#[local] Existing Instances code_le_total code_le_trans code_le_antisymm.

Lemma replace_blank_tiles p : Py.replace_char p blank_char [] = tiles p.
Proof.
  unfold Py.replace_char, tiles. induction p as [|a p IH]; [done|].
  simpl. rewrite filter_cons, IH.
  case_bool_decide; [by rewrite decide_False by tauto|by rewrite decide_True].
Qed.

Lemma join_sorted s : Py.join [] (Py.sorted s) = merge_sort Py.code_le s.
Proof. apply join_empty_chars. Qed.

(** The sorted tiles are what [sorted] computes, and nothing else is. *)
Lemma sorted_tiles_merge_sort p : sorted_tiles p (merge_sort Py.code_le (tiles p)).
Proof.
  split; [apply merge_sort_Permutation|apply (Sorted_merge_sort _)].
Qed.

Lemma sorted_tiles_unique p s :
  sorted_tiles p s → s = merge_sort Py.code_le (tiles p).
Proof.
  intros [Hperm Hsort]. apply (Sorted_unique Py.code_le); [done| |].
  - apply (Sorted_merge_sort _).
  - by rewrite merge_sort_Permutation.
Qed.

Lemma sorted_tiles_no_blank p s : sorted_tiles p s → blank_char ∉ s.
Proof.
  intros [Hperm _] Hin. rewrite Hperm in Hin.
  apply list_elem_of_filter in Hin as [Hne _]. done.
Qed.

(** [x[:-1]] drops the last character. *)
Lemma slice_drop_last s c : Py.slice (s ++ [c]) 0 (-1) = s.
Proof.
  unfold Py.slice, Py.clip, Py.len. rewrite length_app. simpl.
  replace (Z.to_nat (Z.min 0 _)) with 0 by lia. rewrite drop_0.
  replace (Z.to_nat (Z.max _ 0) - 0) with (length s) by lia.
  by rewrite take_app_length.
Qed.

Lemma is_solved_unfold p :
  is_solved p = true ↔
  p = merge_sort Py.code_le (tiles p) ++ [blank_char]
  ∨ p = blank_char :: merge_sort Py.code_le (tiles p).
Proof.
  unfold is_solved. cbv zeta.
  rewrite replace_blank_tiles, join_sorted, slice_drop_last.
  rewrite orb_true_iff, !bool_decide_eq_true. done.
Qed.

End solved_facts.

(** ** Rows *)

Section rows_facts.
Implicit Types (s p r : str) (rows : list str) (c : ascii) (i j k n m : nat).

Lemma range_multiples n m :
  0 < n →
  Py.range 0 (Z.of_nat (m * n)) (Z.of_nat n)
  = Ok (map (λ k, Z.of_nat (k * n)) (seq 0 m)).
Proof.
  intros Hn. unfold Py.range.
  destruct (Z.eqb_spec (Z.of_nat n) 0) as [?|_]; [lia|].
  destruct (Z.ltb_spec 0 (Z.of_nat n)) as [_|?]; [|lia].
  f_equal. destruct m as [|m].
  - simpl. destruct (Z.ltb_spec (Z.of_nat n) 0); done.
  - destruct (Z.ltb_spec 0 (Z.of_nat (S m * n))) as [_|?]; [|lia].
    simpl andb. cbv iota.
    assert ((Z.of_nat (S m * n) - 1 - 0) / Z.of_nat n = Z.of_nat m)%Z as ->.
    { symmetry. apply (Z.div_unique _ _ _ (Z.of_nat n - 1)); lia. }
    replace (Z.to_nat (1 + Z.of_nat m)) with (S m) by lia.
    apply map_ext. intros k. lia.
Qed.

Lemma take_min_length {A} (l : list A) n :
  take (n `min` length l) l = take n l.
Proof.
  destruct (Nat.le_ge_cases n (length l)).
  - by rewrite Nat.min_l.
  - rewrite Nat.min_r by done. by rewrite !take_ge.
Qed.

(** A slice of [n] symbols from a multiple of [n] is a chunk. *)
Lemma slice_chunk p n k :
  Py.slice p (Z.of_nat (k * n)) (Z.of_nat (k * n) + Z.of_nat n) = chunk n p k.
Proof.
  unfold Py.slice, Py.clip, Py.len, chunk. cbv zeta.
  destruct (Z.ltb_spec (Z.of_nat (k * n)) 0); [lia|].
  destruct (Z.ltb_spec (Z.of_nat (k * n) + Z.of_nat n) 0); [lia|].
  destruct (Nat.le_gt_cases (length p) (k * n)) as [Hge|Hlt].
  - replace (Z.to_nat (Z.min (Z.of_nat (k * n)) (Z.of_nat (length p))))
      with (length p) by lia.
    rewrite drop_all, (drop_ge p (k * n)) by done. by rewrite !take_nil.
  - replace (Z.to_nat (Z.min (Z.of_nat (k * n)) (Z.of_nat (length p))))
      with (k * n) by lia.
    replace (Z.to_nat (Z.min (Z.of_nat (k * n) + Z.of_nat n) (Z.of_nat (length p)))
             - k * n) with (n `min` length (drop (k * n) p))
      by (rewrite length_drop; lia).
    apply take_min_length.
Qed.

Lemma rows_from_puzzle_chunks p n :
  0 < n → length p = n * n →
  rows_from_puzzle p = Ok (Py.join [newline_char] (chunks n n p)).
Proof.
  intros Hn Hlen. unfold rows_from_puzzle. cbv zeta.
  rewrite (size_of_square _ _ Hlen). unfold Py.len at 1. rewrite Hlen.
  rewrite range_multiples, bind_Ok by done.
  unfold chunks. rewrite map_map. do 2 f_equal.
  apply map_ext. intros k. apply slice_chunk.
Qed.

Lemma chunks_length n m p : length (chunks n m p) = m.
Proof. unfold chunks. by rewrite length_map, length_seq. Qed.

Lemma chunks_lookup n m p k : k < m → chunks n m p !! k = Some (chunk n p k).
Proof.
  intros Hk. unfold chunks. rewrite list_lookup_fmap.
  rewrite lookup_seq_lt by done. done.
Qed.

Lemma chunk_length n p k : (k + 1) * n ≤ length p → length (chunk n p k) = n.
Proof. intros Hk. unfold chunk. rewrite length_take, length_drop. lia. Qed.

Lemma chunks_snoc n m p : chunks n (S m) p = chunks n m p ++ [chunk n p m].
Proof. unfold chunks. by rewrite seq_S, map_app. Qed.

Lemma chunks_concat n m p : concat (chunks n m p) = take (m * n) p.
Proof.
  induction m as [|m IH]; [done|].
  rewrite chunks_snoc, concat_app, IH. simpl. rewrite app_nil_r.
  unfold chunk. rewrite take_take_drop. f_equal. lia.
Qed.

Lemma chunks_all n p : length p = n * n → concat (chunks n n p) = p.
Proof. intros Hlen. rewrite chunks_concat. apply take_ge. lia. Qed.

Lemma chunk_elem n p k c : c ∈ chunk n p k → c ∈ p.
Proof.
  unfold chunk. intros Hc.
  by apply subseteq_take, subseteq_drop in Hc.
Qed.

Lemma chunks_nonempty n p : 0 < n → chunks n n p ≠ [].
Proof.
  intros Hn Hnil. apply (f_equal length) in Hnil.
  rewrite chunks_length in Hnil. simpl in Hnil. lia.
Qed.

Lemma chunks_no_newline n m p :
  valid_state p = true → Forall (λ r, newline_char ∉ r) (chunks n m p).
Proof.
  intros Hv. apply Forall_forall. intros r Hr Hc.
  apply list_elem_of_fmap in Hr as (k & -> & _).
  apply chunk_elem in Hc. by apply (valid_no_newline p).
Qed.

End rows_facts.

(** ** Joining and splitting *)

Section join_facts.
Implicit Types (s p r sep : str) (rows : list str) (c : ascii).

Lemma join_cons sep r rows :
  rows ≠ [] → Py.join sep (r :: rows) = r ++ sep ++ Py.join sep rows.
Proof. by destruct rows. Qed.

Lemma flat_map_join (f : ascii → list ascii) sep rows :
  flat_map f (Py.join sep rows)
  = Py.join (flat_map f sep) (map (flat_map f) rows).
Proof.
  induction rows as [|r [|r' rows] IH]; [done..|].
  rewrite join_cons by done. rewrite !flat_map_app, IH. done.
Qed.

Lemma without_newlines_id s : newline_char ∉ s → without_newlines s = s.
Proof.
  unfold without_newlines. induction s as [|a s IH]; [done|].
  rewrite not_elem_of_cons. intros [Hne Hs].
  rewrite filter_cons, decide_True by done. by rewrite IH.
Qed.

Lemma without_newlines_app s1 s2 :
  without_newlines (s1 ++ s2) = without_newlines s1 ++ without_newlines s2.
Proof. apply filter_app. Qed.

(** Deleting the newlines of joined rows leaves the rows, end to end. *)
Lemma without_newlines_join rows :
  Forall (λ r, newline_char ∉ r) rows →
  without_newlines (Py.join [newline_char] rows) = concat rows.
Proof.
  induction rows as [|r [|r' rows] IH]; intros Hall; [done|..].
  - apply Forall_cons in Hall as [Hr _]. simpl. rewrite app_nil_r.
    by apply without_newlines_id.
  - apply Forall_cons in Hall as [Hr Hall].
    rewrite join_cons, !without_newlines_app, IH by done.
    rewrite (without_newlines_id r) by done. done.
Qed.

Lemma split_at_app c r s piece pieces :
  c ∉ r → split_at c s = piece :: pieces →
  split_at c (r ++ s) = (r ++ piece) :: pieces.
Proof.
  intros Hr Hs. induction r as [|a r IH]; [done|].
  apply not_elem_of_cons in Hr as [Hne Hr]. simpl.
  rewrite bool_decide_eq_false_2 by congruence.
  by rewrite IH.
Qed.

(** Splitting joined rows at the separator gives the rows back. *)
Lemma split_at_join c rows :
  rows ≠ [] → Forall (λ r, c ∉ r) rows →
  split_at c (Py.join [c] rows) = rows.
Proof.
  induction rows as [|r [|r' rows] IH]; intros Hne Hall; [done|..].
  - apply Forall_cons in Hall as [Hr _]. simpl.
    rewrite <- (app_nil_r r) at 1.
    rewrite (split_at_app c r [] [] []) by done. by rewrite app_nil_r.
  - apply Forall_cons in Hall as [Hr Hall].
    rewrite join_cons by done.
    rewrite (split_at_app c r _ [] (r' :: rows)); [by rewrite app_nil_r|done|].
    change ([c] ++ ?x) with (c :: x). cbn [split_at].
    rewrite bool_decide_eq_true_2 by done. by rewrite IH.
Qed.

(** A space in front of the text and between its characters is a space
    before each character. *)
Lemma space_before_each r :
  r ≠ [] →
  [space_char] ++ Py.join [space_char] (Py.chars r) = spaced_row r.
Proof.
  induction r as [|a [|b r] IH]; intros Hne; [done..|].
  change (Py.chars (a :: b :: r)) with ([a] :: Py.chars (b :: r)).
  rewrite join_cons by done.
  change (spaced_row (a :: b :: r)) with ([space_char; a] ++ spaced_row (b :: r)).
  rewrite <- IH by done. done.
Qed.

End join_facts.

(** ** The blank of a valid state *)

Section blank_facts.
Implicit Types (s p : str) (c : ascii) (i j k n : nat).

Lemma valid_blank_leftmost p j :
  valid_state p = true → p !! j = Some blank_char → leftmost blank_char p j.
Proof.
  intros Hv Hj. split; [done|]. intros k Hk Hpk.
  assert (k = j) by by eapply valid_blank_unique. lia.
Qed.

Lemma valid_blank_lookup p :
  valid_state p = true → ∃ j, p !! j = Some blank_char.
Proof. intros [j [Hj _]]%valid_blank_position. by exists j. Qed.

Lemma valid_side_pos p n : valid_state p = true → length p = n * n → 2 ≤ n ≤ 6.
Proof.
  intros (m & Hm & Hlen)%valid_side Hn.
  assert (n = m) as -> by (apply side_unique; lia). done.
Qed.

(** What one exchange leaves at every position. *)
Lemma exchange_lookup p c i j k :
  i ≠ j → p !! i = Some c → p !! j = Some blank_char →
  <[i:=blank_char]> (<[j:=c]> p) !! k
  = if decide (k = i) then Some blank_char
    else if decide (k = j) then Some c else p !! k.
Proof.
  intros Hij Hi Hj.
  assert (i < length p) by by eapply lookup_lt_Some.
  assert (j < length p) by by eapply lookup_lt_Some.
  destruct (decide (k = i)) as [->|Hki].
  - apply list_lookup_insert_eq. by rewrite length_insert.
  - rewrite list_lookup_insert_ne by done.
    destruct (decide (k = j)) as [->|Hkj].
    + by apply list_lookup_insert_eq.
    + by rewrite list_lookup_insert_ne.
Qed.

Lemma exchanged_tile_blank p c i j :
  p !! i = Some c → p !! j = Some blank_char →
  exchanged i j p = <[i:=blank_char]> (<[j:=c]> p).
Proof. intros Hi Hj. unfold exchanged. by rewrite Hi, Hj. Qed.

(** Exchanging a tile and the blank a second time undoes the first. *)
Lemma exchange_back p c i j :
  i ≠ j → p !! i = Some c → p !! j = Some blank_char →
  <[j:=blank_char]> (<[i:=c]> (<[i:=blank_char]> (<[j:=c]> p))) = p.
Proof.
  intros Hij Hi Hj.
  rewrite list_insert_insert_eq.
  rewrite (list_insert_insert_ne _ i j) by done.
  rewrite list_insert_insert_eq.
  rewrite (list_insert_id p i) by done.
  by apply list_insert_id.
Qed.

End blank_facts.

(** ** The properties of the specification *)


(** C1. For a valid state, [is_solved] answers true exactly when the state is
    its non-blank symbols in ascending code-point order followed by the
    blank, or the blank followed by them; and a state whose blank is at an
    interior position is not solved, whatever the order of its other
    symbols. *)
Theorem is_solved_sorted_blank_at_an_end (p : str) :
  valid_state p = true →
  (is_solved p = true ↔
     ∃ s, sorted_tiles p s ∧ (p = s ++ [blank_char] ∨ p = [blank_char] ++ s))
  ∧ (∀ i, p !! i = Some blank_char → 0 < i < length p - 1 →
          is_solved p = false).
Proof.
  intros _. split.
  - rewrite is_solved_unfold. split.
    + intros Hp. exists (merge_sort Py.code_le (tiles p)).
      split; [apply sorted_tiles_merge_sort|done].
    + intros (s & Hs & Hp). by rewrite (sorted_tiles_unique _ _ Hs) in Hp.
  - intros i Hi Hrange. apply not_true_is_false. intros Hsolved.
    apply is_solved_unfold in Hsolved.
    pose proof (sorted_tiles_no_blank _ _ (sorted_tiles_merge_sort p)) as Hnot.
    set (s := merge_sort Py.code_le (tiles p)) in *.
    apply Hnot. destruct Hsolved as [Hp|Hp]; rewrite Hp in Hi, Hrange.
    + rewrite length_app in Hrange. simpl in Hrange.
      rewrite lookup_app_l in Hi by lia. by eapply list_elem_of_lookup_2.
    + destruct i as [|i]; [lia|]. simpl in Hi. by eapply list_elem_of_lookup_2.
Qed.

Lemma is_solved_sorted_blank_at_an_end_witness :
  valid_state (lit "12345678-") = true
  ∧ ((is_solved (lit "12345678-") = true ↔
        ∃ s, sorted_tiles (lit "12345678-") s
             ∧ (lit "12345678-" = s ++ [blank_char]
                ∨ lit "12345678-" = [blank_char] ++ s))
     ∧ (∀ i, lit "12345678-" !! i = Some blank_char →
             0 < i < length (lit "12345678-") - 1 →
             is_solved (lit "12345678-") = false)).
Proof.
  split; [reflexivity|].
  apply (is_solved_sorted_blank_at_an_end (lit "12345678-")). reflexivity.
Defined.

(** C2. For a valid state of side [n] and a symbol found at [i], with the
    blank at [j], [is_legal_move] returns a boolean, and it is true exactly
    when the symbol is not the blank and the cells of [i] and [j] are
    orthogonally adjacent; for the blank as the tile it returns false on
    every state. *)
Theorem is_legal_move_iff_adjacent (p : str) (n : nat) (c : ascii) (i j : nat) :
  valid_state p = true → length p = n * n →
  leftmost c p i → p !! j = Some blank_char →
  (∃ b, is_legal_move p [c] = Ok b
        ∧ (b = true ↔ c ≠ blank_char ∧ orth_adjacent n i j))
  ∧ (∀ q : str, is_legal_move q [blank_char] = Ok false).
Proof.
  intros Hv Hlen Hi Hj. split; [|apply is_legal_move_blank].
  destruct (decide (c = blank_char)) as [->|Hc].
  - exists false. split; [apply is_legal_move_blank|]. split; [done|tauto].
  - pose proof (valid_side_pos _ _ Hv Hlen) as Hn.
    exists (adjacent_test (Z.of_nat n) (Z.of_nat i) (Z.of_nat j)). split.
    + apply is_legal_move_leftmost; try done; [lia|].
      by apply valid_blank_leftmost.
    + rewrite adjacent_test_spec. tauto.
Qed.

Lemma is_legal_move_iff_adjacent_witness :
  valid_state (lit "12345678-") = true
  ∧ length (lit "12345678-") = 3 * 3
  ∧ leftmost "8"%char (lit "12345678-") 7
  ∧ lit "12345678-" !! 8 = Some blank_char
  ∧ (∃ b, is_legal_move (lit "12345678-") ["8"%char] = Ok b
          ∧ (b = true ↔ "8"%char ≠ blank_char ∧ orth_adjacent 3 7 8))
  ∧ (∀ q : str, is_legal_move q [blank_char] = Ok false).
Proof.
  assert (leftmost "8"%char (lit "12345678-") 7) as Hleft
    by (apply find_char_Some; reflexivity).
  split; [reflexivity|]. split; [reflexivity|]. split; [exact Hleft|].
  split; [reflexivity|].
  apply (is_legal_move_iff_adjacent (lit "12345678-") 3 "8"%char 7 8);
    first [reflexivity | exact Hleft].
Defined.

(** C3. For a valid state and a non-blank symbol present in it,
    [puzzle_with_move] returns a state of the same length in which the
    symbol's position holds the blank, the blank's position holds the
    symbol, and every other position holds what it held. *)
Theorem puzzle_with_move_exchanges (p : str) (c : ascii) :
  valid_state p = true → c ≠ blank_char → c ∈ p →
  ∃ p' i j,
    puzzle_with_move p [c] = Ok p'
    ∧ p !! i = Some c ∧ p !! j = Some blank_char
    ∧ p' !! i = Some blank_char ∧ p' !! j = Some c
    ∧ (∀ k, k ≠ i → k ≠ j → p' !! k = p !! k)
    ∧ length p' = length p.
Proof.
  intros Hv Hc Hin.
  destruct (leftmost_exists _ _ Hin) as [i Hi].
  destruct (valid_blank_position _ Hv) as [j Hj].
  assert (i ≠ j) as Hij.
  { intros ->. destruct Hi as [Hi _], Hj as [Hj _]. congruence. }
  exists (<[i:=blank_char]> (<[j:=c]> p)), i, j.
  split; [by apply puzzle_with_move_leftmost|].
  destruct Hi as [Hi _], Hj as [Hj _].
  repeat split; try done.
  - rewrite (exchange_lookup p c i j) by done. by rewrite decide_True.
  - rewrite (exchange_lookup p c i j) by done.
    rewrite decide_False by done. by rewrite decide_True.
  - intros k Hki Hkj. rewrite (exchange_lookup p c i j) by done.
    by rewrite !decide_False.
  - by rewrite !length_insert.
Qed.

Lemma puzzle_with_move_exchanges_witness :
  valid_state (lit "12345678-") = true ∧ "5"%char ≠ blank_char
  ∧ ("5"%char ∈ lit "12345678-")
  ∧ ∃ p' i j,
      puzzle_with_move (lit "12345678-") ["5"%char] = Ok p'
      ∧ lit "12345678-" !! i = Some "5"%char
      ∧ lit "12345678-" !! j = Some blank_char
      ∧ p' !! i = Some blank_char ∧ p' !! j = Some "5"%char
      ∧ (∀ k, k ≠ i → k ≠ j → p' !! k = lit "12345678-" !! k)
      ∧ length p' = length (lit "12345678-").
Proof.
  assert ("5"%char ∈ lit "12345678-") as Hin
    by (apply (list_elem_of_lookup_2 _ 4); reflexivity).
  split; [reflexivity|]. split; [discriminate|]. split; [exact Hin|].
  apply (puzzle_with_move_exchanges (lit "12345678-") "5"%char);
    [reflexivity|discriminate|exact Hin].
Defined.

(** C4. For a valid state of side [n], [rows_from_puzzle] returns the [n]
    chunks of [n] symbols, in order, with one newline between consecutive
    rows and none after the last: splitting the text at its newlines gives
    the rows, and deleting the newlines and cutting into chunks of [n]
    gives the state back. *)
Theorem rows_from_puzzle_roundtrip (p : str) (n : nat) :
  valid_state p = true → length p = n * n →
  ∃ out rows,
    rows_from_puzzle p = Ok out
    ∧ 2 ≤ n ≤ 6
    ∧ length rows = n
    ∧ (∀ k, k < n → rows !! k = Some (chunk n p k) ∧ length (chunk n p k) = n)
    ∧ out = Py.join [newline_char] rows
    ∧ split_at newline_char out = rows
    ∧ without_newlines out = p
    ∧ chunks n n (without_newlines out) = rows
    ∧ concat rows = p.
Proof.
  intros Hv Hlen. pose proof (valid_side_pos _ _ Hv Hlen) as Hn.
  pose proof (chunks_no_newline n n p Hv) as Hnl.
  assert (chunks n n p ≠ []) as Hne by (apply chunks_nonempty; lia).
  assert (without_newlines (Py.join [newline_char] (chunks n n p)) = p) as Hback.
  { rewrite without_newlines_join by done. by apply chunks_all. }
  exists (Py.join [newline_char] (chunks n n p)), (chunks n n p).
  split; [apply rows_from_puzzle_chunks; [lia|done]|].
  split; [done|]. split; [apply chunks_length|]. split.
  { intros k Hk. split; [by apply chunks_lookup|]. apply chunk_length. nia. }
  split; [done|]. split; [by apply split_at_join|].
  split; [done|]. split; [by rewrite Hback|by apply chunks_all].
Qed.

Lemma rows_from_puzzle_roundtrip_witness :
  valid_state (lit "12345678-") = true
  ∧ length (lit "12345678-") = 3 * 3
  ∧ ∃ out rows,
      rows_from_puzzle (lit "12345678-") = Ok out
      ∧ 2 ≤ 3 ≤ 6
      ∧ length rows = 3
      ∧ (∀ k, k < 3 → rows !! k = Some (chunk 3 (lit "12345678-") k)
                      ∧ length (chunk 3 (lit "12345678-") k) = 3)
      ∧ out = Py.join [newline_char] rows
      ∧ split_at newline_char out = rows
      ∧ without_newlines out = lit "12345678-"
      ∧ chunks 3 3 (without_newlines out) = rows
      ∧ concat rows = lit "12345678-".
Proof.
  split; [reflexivity|]. split; [reflexivity|].
  apply (rows_from_puzzle_roundtrip (lit "12345678-") 3); reflexivity.
Defined.

(** C5, as claimed, fails when the state holds the tile's symbol twice.  In
    ['22-1'] the ['2'] found first, at position 0, is above the blank and the
    move is legal; it gives ['-221'], where the ['2'] found first is the
    other copy, at position 1, and moving ['2'] again gives ['2-21']. *)
Lemma move_twice_duplicate_tile_counterexample :
  valid_state (lit "22-1") = true
  ∧ is_legal_move (lit "22-1") ["2"%char] = Ok true
  ∧ puzzle_with_move (lit "22-1") ["2"%char] = Ok (lit "-221")
  ∧ move_twice (lit "22-1") ["2"%char] = Ok (lit "2-21")
  ∧ move_twice (lit "22-1") ["2"%char] ≠ Ok (lit "22-1").
Proof.
  split; [reflexivity|]. split; [reflexivity|]. split; [reflexivity|].
  split; [reflexivity|]. vm_compute. discriminate.
Qed.

(** C5, as the source has it.  For a valid state and a tile for which
    [is_legal_move] returns true, found at [i] with the blank at [j],
    applying [puzzle_with_move] twice with that tile returns the original
    state exactly when no further copy of the tile's symbol lies between
    [i] and [j]; so it does for every symbol that occurs once. *)
Theorem move_twice_restores_iff (p : str) (c : ascii) (i j : nat) :
  valid_state p = true → is_legal_move p [c] = Ok true →
  leftmost c p i → p !! j = Some blank_char →
  (move_twice p [c] = Ok p ↔ ∀ k, i < k < j → p !! k ≠ Some c)
  ∧ (count c p = 1 → move_twice p [c] = Ok p).
Proof.
  intros Hv Hlegal Hi Hj.
  destruct (is_legal_move_true_inv _ _ Hlegal) as [Hc _].
  pose proof (valid_blank_leftmost _ _ Hv Hj) as Hjl.
  assert (i ≠ j) as Hij.
  { intros ->. destruct Hi as [Hi _]. congruence. }
  pose proof (exchange_lookup p c i j) as Hlook.
  specialize (λ k, Hlook k Hij (proj1 Hi) Hj).
  set (p' := <[i:=blank_char]> (<[j:=c]> p)) in *.
  assert (leftmost blank_char p' i) as Hbl'.
  { split.
    - by rewrite Hlook, decide_True.
    - intros k Hk. rewrite Hlook, decide_False by lia.
      destruct (decide (k = j)) as [->|Hkj]; [congruence|].
      intros Hpk. apply Hkj. by eapply valid_blank_unique. }
  assert (c ∈ p') as Hin'.
  { apply (list_elem_of_lookup_2 _ j).
    rewrite Hlook, decide_False by done. by rewrite decide_True. }
  destruct (leftmost_exists _ _ Hin') as [m Hm].
  assert (move_twice p [c] = Ok (<[m:=blank_char]> (<[i:=c]> p'))) as Htwice.
  { unfold move_twice.
    rewrite (puzzle_with_move_leftmost p c i j) by done.
    rewrite bind_Ok. by apply puzzle_with_move_leftmost. }
  assert (m < length p') as Hmlt by by eapply leftmost_lt.
  assert ((∀ k, i < k < j → p !! k ≠ Some c) → move_twice p [c] = Ok p) as Hback.
  { intros Hnone.
    assert (leftmost c p' j) as Hcl'.
    { split.
      - rewrite Hlook, decide_False by done. by rewrite decide_True.
      - intros k Hk. rewrite Hlook.
        destruct (decide (k = i)) as [->|Hki]; [congruence|].
        rewrite decide_False by lia.
        destruct (Nat.lt_ge_cases k i); [by apply Hi|apply Hnone; lia]. }
    assert (m = j) as -> by by eapply leftmost_unique.
    rewrite Htwice. f_equal. by apply exchange_back; [|apply Hi|]. }
  split; [split; [|done]|].
  - rewrite Htwice. intros [= Heq] k Hk Hpk.
    assert (p' !! k = Some c) as Hpk'.
    { rewrite Hlook, !decide_False by lia. done. }
    assert (m ≤ k) as Hmk.
    { destruct (Nat.le_gt_cases m k); [done|].
      exfalso. by apply (proj2 Hm k). }
    assert (p !! m = Some blank_char) as Hpm.
    { rewrite <- Heq. apply list_lookup_insert_eq.
      by rewrite length_insert. }
    assert (m = j) by by eapply valid_blank_unique. lia.
  - intros Hone. apply Hback. intros k Hk Hpk.
    assert (k = i) by (eapply count_one_position; [done|done|apply Hi]). lia.
Qed.

Lemma move_twice_restores_iff_witness :
  valid_state (lit "12345678-") = true
  ∧ is_legal_move (lit "12345678-") ["6"%char] = Ok true
  ∧ leftmost "6"%char (lit "12345678-") 5
  ∧ lit "12345678-" !! 8 = Some blank_char
  ∧ (move_twice (lit "12345678-") ["6"%char] = Ok (lit "12345678-")
     ↔ ∀ k, 5 < k < 8 → lit "12345678-" !! k ≠ Some "6"%char)
  ∧ (count "6"%char (lit "12345678-") = 1 →
     move_twice (lit "12345678-") ["6"%char] = Ok (lit "12345678-")).
Proof.
  assert (leftmost "6"%char (lit "12345678-") 5) as Hleft
    by (apply find_char_Some; reflexivity).
  split; [reflexivity|]. split; [reflexivity|]. split; [exact Hleft|].
  split; [reflexivity|].
  apply (move_twice_restores_iff (lit "12345678-") "6"%char 5 8);
    first [reflexivity | exact Hleft].
Defined.

(** C6. With the blank marker as the tile, [puzzle_with_move] returns its
    input unchanged, for every state. *)
Theorem puzzle_with_move_blank_noop (p : str) :
  puzzle_with_move p [blank_char] = Ok p.
Proof. unfold puzzle_with_move. by rewrite bool_decide_eq_true_2. Qed.

(** C7, as the source has it.  For a valid state of side [n],
    [space_puzzle] puts one space before every character of the text of
    [rows_from_puzzle], the newlines included: each row has a space before
    each of its symbols, consecutive rows are separated by a space and a
    newline, and the first line has no further space in front. *)
Theorem space_puzzle_space_before_every_character (p : str) (n : nat) :
  valid_state p = true → length p = n * n →
  ∃ text,
    rows_from_puzzle p = Ok text
    ∧ space_puzzle p = Ok (spaced_row text)
    ∧ spaced_row text
      = Py.join [space_char; newline_char] (map spaced_row (chunks n n p)).
Proof.
  intros Hv Hlen. pose proof (valid_side_pos _ _ Hv Hlen) as Hn.
  exists (Py.join [newline_char] (chunks n n p)).
  assert (rows_from_puzzle p = Ok (Py.join [newline_char] (chunks n n p))) as Hrows
    by (apply rows_from_puzzle_chunks; [lia|done]).
  split; [done|]. split.
  - unfold space_puzzle. rewrite Hrows, bind_Ok. f_equal.
    apply space_before_each. intros Hnil.
    apply (f_equal without_newlines) in Hnil.
    rewrite without_newlines_join in Hnil by by apply chunks_no_newline.
    rewrite chunks_all in Hnil by done.
    rewrite Hnil in Hlen. simpl in Hlen. nia.
  - unfold spaced_row at 1. by rewrite flat_map_join.
Qed.

Lemma space_puzzle_space_before_every_character_witness :
  valid_state (lit "12345678-") = true
  ∧ length (lit "12345678-") = 3 * 3
  ∧ ∃ text,
      rows_from_puzzle (lit "12345678-") = Ok text
      ∧ space_puzzle (lit "12345678-") = Ok (spaced_row text)
      ∧ spaced_row text
        = Py.join [space_char; newline_char]
            (map spaced_row (chunks 3 3 (lit "12345678-"))).
Proof.
  split; [reflexivity|]. split; [reflexivity|].
  apply (space_puzzle_space_before_every_character (lit "12345678-") 3);
    reflexivity.
Defined.

(** C7, as the specification words it, fails: on ['12345678-'] the source
    returns [' 1 2 3 \n 4 5 6 \n 7 8 -'], with one space in front of the
    first line and a space at the end of the first two, where the wording
    gives ['  1 2 3\n 4 5 6\n 7 8 -']. *)
Lemma space_puzzle_not_as_specified :
  valid_state (lit "12345678-") = true
  ∧ space_puzzle (lit "12345678-")
    = Ok (lit " 1 2 3 " ++ [newline_char] ++ lit " 4 5 6 " ++ [newline_char]
          ++ lit " 7 8 -")
  ∧ spaced_as_specified 3 (lit "12345678-")
    = lit "  1 2 3" ++ [newline_char] ++ lit " 4 5 6" ++ [newline_char]
      ++ lit " 7 8 -"
  ∧ space_puzzle (lit "12345678-")
    ≠ Ok (spaced_as_specified 3 (lit "12345678-")).
Proof.
  split; [reflexivity|]. split; [reflexivity|]. split; [reflexivity|].
  vm_compute. discriminate.
Qed.

(** C8. For a valid state and a non-blank symbol that does not occur in it,
    [is_legal_move] and [puzzle_with_move] both fail: the lookup of the tile
    raises, and neither a boolean nor a state is returned. *)
Theorem absent_tile_raises (p : str) (c : ascii) :
  valid_state p = true → c ≠ blank_char → c ∉ p →
  is_legal_move p [c] = Raise ValueError
  ∧ puzzle_with_move p [c] = Raise ValueError.
Proof.
  intros Hv Hc Hnot.
  destruct (valid_blank_lookup _ Hv) as [j Hj].
  assert (blank_char ∈ p) by by eapply list_elem_of_lookup_2.
  split; [by apply is_legal_move_absent|by apply puzzle_with_move_absent].
Qed.

Lemma absent_tile_raises_witness :
  valid_state (lit "12345678-") = true ∧ "9"%char ≠ blank_char
  ∧ ("9"%char ∉ lit "12345678-")
  ∧ is_legal_move (lit "12345678-") ["9"%char] = Raise ValueError
  ∧ puzzle_with_move (lit "12345678-") ["9"%char] = Raise ValueError.
Proof.
  assert ("9"%char ∉ lit "12345678-") as Hnot
    by (apply find_char_None; reflexivity).
  split; [reflexivity|]. split; [discriminate|]. split; [exact Hnot|].
  apply (absent_tile_raises (lit "12345678-") "9"%char);
    [reflexivity|discriminate|exact Hnot].
Defined.

(** C9. For a valid state of side [n] holding the tile's symbol more than
    once, both functions take the symbol at its leftmost position [i]:
    [is_legal_move] answers whether the cell of [i] is orthogonally adjacent
    to the blank's, and [puzzle_with_move] exchanges the blank with position
    [i], every other copy of the symbol staying where it is. *)
Theorem duplicate_tile_resolves_to_leftmost (p : str) (n : nat) (c : ascii) :
  valid_state p = true → length p = n * n → 2 ≤ count c p →
  ∃ i j b p',
    leftmost c p i ∧ p !! j = Some blank_char
    ∧ is_legal_move p [c] = Ok b ∧ (b = true ↔ orth_adjacent n i j)
    ∧ puzzle_with_move p [c] = Ok p'
    ∧ p' !! i = Some blank_char ∧ p' !! j = Some c
    ∧ (∀ k, k ≠ i → p !! k = Some c → p' !! k = Some c)
    ∧ (∃ k, i < k ∧ p !! k = Some c ∧ p' !! k = Some c).
Proof.
  intros Hv Hlen Hcnt.
  pose proof (valid_side_pos _ _ Hv Hlen) as Hn.
  pose proof (valid_state_unfold _ Hv) as (_ & _ & Hone).
  assert (c ≠ blank_char) as Hc by (intros ->; lia).
  assert (c ∈ p) as Hin by (apply count_pos; lia).
  destruct (leftmost_exists _ _ Hin) as [i Hi].
  destruct (valid_blank_position _ Hv) as [j Hj].
  assert (i ≠ j) as Hij.
  { intros ->. destruct Hi as [Hi _], Hj as [Hj _]. congruence. }
  pose proof (exchange_lookup p c i j) as Hlook.
  specialize (λ k, Hlook k Hij (proj1 Hi) (proj1 Hj)).
  exists i, j, (adjacent_test (Z.of_nat n) (Z.of_nat i) (Z.of_nat j)),
    (<[i:=blank_char]> (<[j:=c]> p)).
  split; [done|]. split; [apply Hj|].
  split; [apply is_legal_move_leftmost; try done; lia|].
  split; [apply adjacent_test_spec|].
  split; [by apply puzzle_with_move_leftmost|].
  assert (∀ k, k ≠ i → p !! k = Some c →
               <[i:=blank_char]> (<[j:=c]> p) !! k = Some c) as Hkeep.
  { intros k Hki Hpk. rewrite Hlook, decide_False by done.
    by destruct (decide (k = j)). }
  split; [by rewrite Hlook, decide_True|].
  split; [rewrite Hlook, decide_False by done; by rewrite decide_True|].
  split; [done|].
  destruct (count_two_positions _ _ _ Hcnt Hi) as (k & Hk & Hpk).
  exists k. split; [done|]. split; [done|]. apply Hkeep; [lia|done].
Qed.

Lemma duplicate_tile_resolves_to_leftmost_witness :
  valid_state (lit "22-1") = true
  ∧ length (lit "22-1") = 2 * 2
  ∧ 2 ≤ count "2"%char (lit "22-1")
  ∧ ∃ i j b p',
      leftmost "2"%char (lit "22-1") i ∧ lit "22-1" !! j = Some blank_char
      ∧ is_legal_move (lit "22-1") ["2"%char] = Ok b
      ∧ (b = true ↔ orth_adjacent 2 i j)
      ∧ puzzle_with_move (lit "22-1") ["2"%char] = Ok p'
      ∧ p' !! i = Some blank_char ∧ p' !! j = Some "2"%char
      ∧ (∀ k, k ≠ i → lit "22-1" !! k = Some "2"%char →
              p' !! k = Some "2"%char)
      ∧ (∃ k, i < k ∧ lit "22-1" !! k = Some "2"%char
              ∧ p' !! k = Some "2"%char).
Proof.
  split; [reflexivity|]. split; [reflexivity|].
  split; [vm_compute; lia|].
  apply (duplicate_tile_resolves_to_leftmost (lit "22-1") 2 "2"%char);
    [reflexivity|reflexivity|vm_compute; lia].
Defined.

(** C10. For a valid state and a non-blank symbol present in it for which
    [is_legal_move] returns false, [puzzle_with_move] still returns the
    state with the symbol and the blank exchanged: a state different from
    its input, and not an error. *)
Theorem puzzle_with_move_ignores_legality (p : str) (c : ascii) :
  valid_state p = true → c ≠ blank_char → c ∈ p →
  is_legal_move p [c] = Ok false →
  ∃ i j,
    leftmost c p i ∧ p !! j = Some blank_char
    ∧ puzzle_with_move p [c] = Ok (exchanged i j p)
    ∧ exchanged i j p !! i = Some blank_char
    ∧ exchanged i j p !! j = Some c
    ∧ exchanged i j p ≠ p.
Proof.
  intros Hv Hc Hin _.
  destruct (leftmost_exists _ _ Hin) as [i Hi].
  destruct (valid_blank_position _ Hv) as [j Hj].
  assert (i ≠ j) as Hij.
  { intros ->. destruct Hi as [Hi _], Hj as [Hj _]. congruence. }
  pose proof (exchange_lookup p c i j) as Hlook.
  specialize (λ k, Hlook k Hij (proj1 Hi) (proj1 Hj)).
  exists i, j. rewrite (exchanged_tile_blank p c i j) by (apply Hi || apply Hj).
  split; [done|]. split; [apply Hj|].
  split; [by apply puzzle_with_move_leftmost|].
  split; [by rewrite Hlook, decide_True|].
  split; [rewrite Hlook, decide_False by done; by rewrite decide_True|].
  intros Heq. apply (f_equal (λ l, l !! i)) in Heq.
  rewrite Hlook, decide_True in Heq by done.
  destruct Hi as [Hi _]. congruence.
Qed.

Lemma puzzle_with_move_ignores_legality_witness :
  valid_state (lit "12345678-") = true ∧ "5"%char ≠ blank_char
  ∧ ("5"%char ∈ lit "12345678-")
  ∧ is_legal_move (lit "12345678-") ["5"%char] = Ok false
  ∧ ∃ i j,
      leftmost "5"%char (lit "12345678-") i
      ∧ lit "12345678-" !! j = Some blank_char
      ∧ puzzle_with_move (lit "12345678-") ["5"%char]
        = Ok (exchanged i j (lit "12345678-"))
      ∧ exchanged i j (lit "12345678-") !! i = Some blank_char
      ∧ exchanged i j (lit "12345678-") !! j = Some "5"%char
      ∧ exchanged i j (lit "12345678-") ≠ lit "12345678-".
Proof.
  assert ("5"%char ∈ lit "12345678-") as Hin
    by (apply (list_elem_of_lookup_2 _ 4); reflexivity).
  split; [reflexivity|]. split; [discriminate|]. split; [exact Hin|].
  split; [reflexivity|].
  apply (puzzle_with_move_ignores_legality (lit "12345678-") "5"%char);
    [reflexivity|discriminate|exact Hin|reflexivity].
Defined.

(** ** Tiles given as arbitrary strings *)

Section any_tile.
Implicit Types (s p t : str) (c a : ascii) (i j k n : nat).

Lemma startswith_prefix s t : Py.startswith s t = true ↔ t `prefix_of` s.
Proof.
  revert s. induction t as [|a t IH]; intros s.
  - simpl. split; [intros _; apply prefix_nil|done].
  - destruct s as [|b s]; simpl.
    + split; [done|]. by intros H%prefix_nil_inv.
    + rewrite andb_true_iff, bool_decide_eq_true, IH. split.
      * intros [-> H]. by apply prefix_cons.
      * intros H. split; [by eapply prefix_cons_inv_1|by eapply prefix_cons_inv_2].
Qed.

Lemma find_empty s : Py.find s [] = Some 0.
Proof. by destruct s. Qed.

Lemma find_Some_prefix s t i :
  Py.find s t = Some i → t `prefix_of` drop i s ∧ i ≤ length s.
Proof.
  revert i. induction s as [|b s IH]; intros i; cbn [Py.find].
  - destruct (Py.startswith [] t) eqn:Hst; [|done].
    intros [= <-]. split; [by apply startswith_prefix|done].
  - destruct (Py.startswith (b :: s) t) eqn:Hst.
    + intros [= <-]. split; [by apply startswith_prefix|simpl; lia].
    + destruct (Py.find s t) as [i'|]; [|done]. intros [= <-].
      destruct (IH i' eq_refl). split; [done|simpl; lia].
Qed.

Lemma find_Some_lt s t i : Py.find s t = Some i → t ≠ [] → i < length s.
Proof.
  intros [Hpre Hle]%find_Some_prefix Ht.
  apply prefix_length in Hpre. rewrite length_drop in Hpre.
  destruct t; [done|]. simpl in Hpre. lia.
Qed.

Lemma occurs_nil t : occurs t [] ↔ t = [].
Proof.
  split.
  - intros (pre & post & Heq). symmetry in Heq.
    apply app_eq_nil in Heq as [_ Heq]. by apply app_eq_nil in Heq as [-> _].
  - intros ->. by exists [], [].
Qed.

Lemma occurs_cons t b s :
  occurs t (b :: s) ↔ t `prefix_of` (b :: s) ∨ occurs t s.
Proof.
  split.
  - intros ([|x pre] & post & Heq).
    + left. by exists post.
    + right. injection Heq as -> ->. by exists pre, post.
  - intros [[post Heq]|(pre & post & ->)].
    + by exists [], post.
    + by exists (b :: pre), post.
Qed.

(** [find] fails exactly on the strings that do not occur. *)
Lemma find_None_occurs s t : Py.find s t = None ↔ ¬ occurs t s.
Proof.
  induction s as [|b s IH]; cbn [Py.find].
  - rewrite occurs_nil. destruct (Py.startswith [] t) eqn:Hst.
    + apply startswith_prefix, prefix_nil_inv in Hst. split; [done|tauto].
    + split; [|done]. intros _ ->. by simpl in Hst.
  - rewrite occurs_cons, <- startswith_prefix.
    destruct (Py.startswith (b :: s) t); [split; [done|tauto]|].
    destruct (Py.find s t); simpl.
    + split; [done|]. intros Hno.
      assert (¬ occurs t s) as Hn by tauto. by apply IH in Hn.
    + split; [|done]. intros _ [?|Hocc]; [done|]. by apply IH in Hocc.
Qed.

End any_tile.

Section any_tile_moves.
Implicit Types (s p t : str) (c a : ascii) (i j k n : nat).

Lemma index_found s t i : Py.find s t = Some i → Py.index s t = Ok (Z.of_nat i).
Proof. intros Hf. unfold Py.index. by rewrite Hf. Qed.

Lemma index_not_found s t : Py.find s t = None → Py.index s t = Raise ValueError.
Proof. intros Hf. unfold Py.index. by rewrite Hf. Qed.

Lemma find_blank_lt p j : Py.find p [blank_char] = Some j → j < length p.
Proof. intros Hj. by apply (find_Some_lt _ _ _ Hj). Qed.

(** The side computed for a string that is not empty is not zero. *)
Lemma size_nonzero p : 0 < length p → Py.int_sqrt (Py.len p) ≠ 0%Z.
Proof.
  intros Hlen. unfold Py.int_sqrt, Py.len.
  assert (0 < Z.sqrt (Z.of_nat (length p)))%Z; [|lia].
  apply Z.sqrt_pos. lia.
Qed.

Lemma is_legal_move_found p t i j :
  t ≠ [blank_char] →
  Py.find p [blank_char] = Some j → Py.find p t = Some i →
  is_legal_move p t
  = Ok (adjacent_test (Py.int_sqrt (Py.len p)) (Z.of_nat i) (Z.of_nat j)).
Proof.
  intros Ht Hj Hi. unfold is_legal_move.
  rewrite bool_decide_eq_false_2 by done. cbv zeta.
  rewrite (index_found _ _ _ Hj), bind_Ok, (index_found _ _ _ Hi), bind_Ok.
  unfold Py.floordiv, Py.modulo.
  rewrite (proj2 (Z.eqb_neq _ 0)); [by rewrite !bind_Ok|].
  apply size_nonzero. apply find_blank_lt in Hj. lia.
Qed.

Lemma is_legal_move_not_found p t :
  t ≠ [blank_char] →
  Py.find p [blank_char] = None ∨ Py.find p t = None →
  is_legal_move p t = Raise ValueError.
Proof.
  intros Ht Hnone. unfold is_legal_move.
  rewrite bool_decide_eq_false_2 by done. cbv zeta.
  destruct (Py.find p [blank_char]) as [j|] eqn:Hj.
  - destruct Hnone as [|Hi]; [done|].
    by rewrite (index_found _ _ _ Hj), bind_Ok, (index_not_found _ _ Hi).
  - by rewrite (index_not_found _ _ Hj).
Qed.

Lemma puzzle_with_move_found p t i j :
  t ≠ [blank_char] →
  Py.find p [blank_char] = Some j → Py.find p t = Some i →
  ∃ a, p !! i = Some a
       ∧ puzzle_with_move p t = Ok (<[i:=blank_char]> (<[j:=a]> p)).
Proof.
  intros Ht Hj Hi.
  pose proof (find_blank_lt _ _ Hj) as Hjlt.
  assert (i < length p) as Hilt.
  { destruct t as [|x t].
    - rewrite find_empty in Hi. injection Hi as <-. lia.
    - by apply (find_Some_lt _ _ _ Hi). }
  destruct (lookup_lt_is_Some_2 p i Hilt) as [a Ha].
  pose proof (proj1 (proj1 (find_char_Some _ _ _) Hj)) as Hpj.
  exists a. split; [done|]. unfold puzzle_with_move.
  rewrite bool_decide_eq_false_2 by done. cbv zeta.
  rewrite (index_found _ _ _ Hj), bind_Ok.
  rewrite (index_found _ _ _ Hi), bind_Ok.
  rewrite (getitem_chars _ _ _ Ha), bind_Ok.
  rewrite (getitem_chars _ _ _ Hpj), bind_Ok.
  rewrite setitem_chars, bind_Ok by done.
  rewrite setitem_chars, bind_Ok by by rewrite length_insert.
  by rewrite join_empty_chars.
Qed.

Lemma puzzle_with_move_not_found p t :
  t ≠ [blank_char] →
  Py.find p [blank_char] = None ∨ Py.find p t = None →
  puzzle_with_move p t = Raise ValueError.
Proof.
  intros Ht Hnone. unfold puzzle_with_move.
  rewrite bool_decide_eq_false_2 by done. cbv zeta.
  destruct (Py.find p [blank_char]) as [j|] eqn:Hj.
  - destruct Hnone as [|Hi]; [done|].
    by rewrite (index_found _ _ _ Hj), bind_Ok, (index_not_found _ _ Hi).
  - by rewrite (index_not_found _ _ Hj).
Qed.

Lemma find_blank_None p : Py.find p [blank_char] = None ↔ blank_char ∉ p.
Proof. apply find_char_None. Qed.

End any_tile_moves.

(** ** Properties of the functions on every string *)

Section permutation_facts.
Implicit Types (s p q t : str) (c a : ascii) (i j k n : nat).

Lemma forallb_Permutation (f : ascii → bool) p q :
  p ≡ₚ q → forallb f p = forallb f q.
Proof.
  induction 1 as [|x p q _ IH|x y p|p q r _ IH1 _ IH2]; simpl.
  - done.
  - by rewrite IH.
  - by rewrite !andb_assoc, (andb_comm (f y)).
  - by rewrite IH1.
Qed.

Lemma count_Permutation c p q : p ≡ₚ q → count c p = count c q.
Proof. intros Hpq. unfold count. by rewrite Hpq. Qed.

(** Validity looks at the symbols of a state, not at their order. *)
Lemma valid_state_Permutation p q : p ≡ₚ q → valid_state p = valid_state q.
Proof.
  intros Hpq. unfold valid_state.
  by rewrite (Permutation_length Hpq), (forallb_Permutation _ _ _ Hpq),
    (count_Permutation _ _ _ Hpq).
Qed.

Lemma puzzle_with_move_Ok_inv p t p' :
  puzzle_with_move p t = Ok p' →
  t = [blank_char] ∧ p' = p
  ∨ t ≠ [blank_char]
    ∧ ∃ i j a, Py.find p [blank_char] = Some j ∧ Py.find p t = Some i
               ∧ p !! i = Some a ∧ p !! j = Some blank_char
               ∧ p' = <[i:=blank_char]> (<[j:=a]> p).
Proof.
  intros Hm. destruct (decide (t = [blank_char])) as [->|Ht].
  - left. split; [done|]. unfold puzzle_with_move in Hm.
    rewrite bool_decide_eq_true_2 in Hm by done. congruence.
  - right. split; [done|].
    destruct (Py.find p [blank_char]) as [j|] eqn:Hj;
      [|rewrite puzzle_with_move_not_found in Hm by auto; done].
    destruct (Py.find p t) as [i|] eqn:Hi;
      [|rewrite puzzle_with_move_not_found in Hm by auto; done].
    destruct (puzzle_with_move_found p t i j Ht Hj Hi) as (a & Ha & Heq).
    exists i, j, a. repeat split; try done.
    + by apply find_char_Some in Hj as [? _].
    + congruence.
Qed.

Lemma puzzle_with_move_Permutation p t p' :
  puzzle_with_move p t = Ok p' → p' ≡ₚ p.
Proof.
  intros Hm. apply puzzle_with_move_Ok_inv in Hm
    as [[_ ->]|(_ & i & j & a & _ & _ & Ha & Hb & ->)]; [done|].
  by apply Permutation_insert_swap.
Qed.

End permutation_facts.

(** X1. On every pair of strings, [is_legal_move] returns a boolean or raises
    [ValueError], never another exception; it raises exactly when the tile
    is not the blank marker and the blank or the tile does not occur in the
    puzzle. *)
Theorem is_legal_move_raises_only_ValueError (p t : str) :
  (is_legal_move p t = Raise ValueError
   ↔ t ≠ [blank_char] ∧ (blank_char ∉ p ∨ ¬ occurs t p))
  ∧ (∀ e, is_legal_move p t = Raise e → e = ValueError).
Proof.
  destruct (decide (t = [blank_char])) as [->|Ht].
  { rewrite is_legal_move_blank. split; [split; [done|tauto]|done]. }
  destruct (Py.find p [blank_char]) as [j|] eqn:Hj.
  - destruct (Py.find p t) as [i|] eqn:Hi.
    + rewrite (is_legal_move_found p t i j) by done.
      split; [|done]. split; [done|]. intros [_ [Hb|Hocc]].
      * apply find_blank_None in Hb. congruence.
      * apply find_None_occurs in Hocc. congruence.
    + rewrite is_legal_move_not_found by auto.
      split; [|congruence]. split; [|done]. intros _. split; [done|].
      right. by apply find_None_occurs.
  - rewrite is_legal_move_not_found by auto.
    split; [|congruence]. split; [|done]. intros _. split; [done|].
    left. by apply find_blank_None.
Qed.

(** X2. On every pair of strings, [puzzle_with_move] returns a string or
    raises [ValueError]: the positions it exchanges are always inside the
    list, so no [IndexError] arises, also for a tile of several characters
    or none.  It raises exactly when the tile is not the blank marker and
    the blank or the tile does not occur in the puzzle. *)
Theorem puzzle_with_move_raises_only_ValueError (p t : str) :
  (puzzle_with_move p t = Raise ValueError
   ↔ t ≠ [blank_char] ∧ (blank_char ∉ p ∨ ¬ occurs t p))
  ∧ (∀ e, puzzle_with_move p t = Raise e → e = ValueError).
Proof.
  destruct (decide (t = [blank_char])) as [->|Ht].
  { unfold puzzle_with_move. rewrite bool_decide_eq_true_2 by done.
    split; [split; [done|tauto]|done]. }
  destruct (Py.find p [blank_char]) as [j|] eqn:Hj.
  - destruct (Py.find p t) as [i|] eqn:Hi.
    + destruct (puzzle_with_move_found p t i j Ht Hj Hi) as (a & _ & ->).
      split; [|done]. split; [done|]. intros [_ [Hb|Hocc]].
      * apply find_blank_None in Hb. congruence.
      * apply find_None_occurs in Hocc. congruence.
    + rewrite puzzle_with_move_not_found by auto.
      split; [|congruence]. split; [|done]. intros _. split; [done|].
      right. by apply find_None_occurs.
  - rewrite puzzle_with_move_not_found by auto.
    split; [|congruence]. split; [|done]. intros _. split; [done|].
    left. by apply find_blank_None.
Qed.

(** X3. An empty answer names the first cell: whenever the puzzle starts
    with the symbol [a], [is_legal_move] and [puzzle_with_move] do on the
    empty string what they do on [a]. *)
Theorem empty_tile_is_first_symbol (p : str) (a : ascii) :
  p !! 0 = Some a →
  is_legal_move p [] = is_legal_move p [a]
  ∧ puzzle_with_move p [] = puzzle_with_move p [a].
Proof.
  intros Ha.
  assert (Py.find p [a] = Some 0) as Hfa.
  { apply find_char_Some. split; [done|]. intros k Hk. lia. }
  destruct (decide (a = blank_char)) as [->|Hne].
  - rewrite (is_legal_move_found p [] 0 0) by (done || apply find_empty).
    destruct (puzzle_with_move_found p [] 0 0) as (b & Hb & ->);
      [done|done|apply find_empty|].
    rewrite is_legal_move_blank. unfold puzzle_with_move.
    rewrite bool_decide_eq_true_2 by done. split.
    + unfold adjacent_test. cbv zeta. by rewrite !Z.sub_diag.
    + f_equal. rewrite list_insert_insert_eq. by apply list_insert_id.
  - assert ([a] ≠ [blank_char]) by congruence.
    destruct (Py.find p [blank_char]) as [j|] eqn:Hj.
    + rewrite (is_legal_move_found p [] 0 j), (is_legal_move_found p [a] 0 j)
        by (done || apply find_empty).
      destruct (puzzle_with_move_found p [] 0 j) as (b & Hb & ->);
        [done|done|apply find_empty|].
      destruct (puzzle_with_move_found p [a] 0 j) as (b' & Hb' & ->);
        [done..|].
      split; [done|]. congruence.
    + by rewrite !is_legal_move_not_found, !puzzle_with_move_not_found by auto.
Qed.

Lemma empty_tile_is_first_symbol_witness :
  lit "1-32" !! 0 = Some "1"%char
  ∧ is_legal_move (lit "1-32") [] = is_legal_move (lit "1-32") ["1"%char]
  ∧ puzzle_with_move (lit "1-32") [] = puzzle_with_move (lit "1-32") ["1"%char].
Proof.
  split; [reflexivity|].
  apply (empty_tile_is_first_symbol (lit "1-32") "1"%char). reflexivity.
Defined.

(** X4. Whatever the tile, a state returned by [puzzle_with_move] is a
    rearrangement of its input: same length, same symbols with the same
    numbers of occurrences, and valid exactly when the input is. *)
Theorem puzzle_with_move_rearranges (p t p' : str) :
  puzzle_with_move p t = Ok p' →
  p' ≡ₚ p ∧ length p' = length p ∧ valid_state p' = valid_state p
  ∧ (∀ c, count c p' = count c p).
Proof.
  intros Hm. pose proof (puzzle_with_move_Permutation _ _ _ Hm) as Hperm.
  split; [done|]. split; [by apply Permutation_length|].
  split; [by apply valid_state_Permutation|].
  intros c. by apply count_Permutation.
Qed.

Lemma puzzle_with_move_rearranges_witness :
  puzzle_with_move (lit "12345678-") (lit "5") = Ok (lit "1234-6785")
  ∧ lit "1234-6785" ≡ₚ lit "12345678-"
  ∧ length (lit "1234-6785") = length (lit "12345678-")
  ∧ valid_state (lit "1234-6785") = valid_state (lit "12345678-")
  ∧ (∀ c, count c (lit "1234-6785") = count c (lit "12345678-")).
Proof.
  split; [reflexivity|].
  apply (puzzle_with_move_rearranges (lit "12345678-") (lit "5")). reflexivity.
Defined.

(** ** Rows of a string of any length *)

Section any_length.
Implicit Types (s p r sep : str) (rows : list str) (c : ascii) (i j k n m : nat).

Lemma size_nat_sqrt p : Py.int_sqrt (Py.len p) = Z.of_nat (Nat.sqrt (length p)).
Proof.
  unfold Py.int_sqrt, Py.len. apply Z.sqrt_unique.
  pose proof (Nat.sqrt_specif (length p)). lia.
Qed.

Lemma sqrt_pos_length p : p ≠ [] → 0 < Nat.sqrt (length p).
Proof.
  intros Hp. pose proof (Nat.sqrt_specif (length p)).
  destruct p; [done|]. simpl in *. destruct (Nat.sqrt _); lia.
Qed.

Lemma range_from_zero len n :
  0 < n → 0 < len →
  Py.range 0 (Z.of_nat len) (Z.of_nat n)
  = Ok (map (λ k, Z.of_nat (k * n)) (seq 0 (S ((len - 1) / n)))).
Proof.
  intros Hn Hlen. unfold Py.range.
  destruct (Z.eqb_spec (Z.of_nat n) 0) as [?|_]; [lia|].
  destruct (Z.ltb_spec 0 (Z.of_nat n)) as [_|?]; [|lia].
  destruct (Z.ltb_spec 0 (Z.of_nat len)) as [_|?]; [|lia].
  simpl andb. cbv iota. f_equal.
  replace (Z.of_nat len - 1 - 0)%Z with (Z.of_nat (len - 1)) by lia.
  rewrite <- Nat2Z.inj_div.
  replace (Z.to_nat (1 + Z.of_nat ((len - 1) / n))) with (S ((len - 1) / n)) by lia.
  apply map_ext. intros k. lia.
Qed.

(** The rows of a string that is not empty: as many chunks of the computed
    side as it takes to cover the string. *)
Lemma rows_from_puzzle_nonempty p :
  p ≠ [] →
  rows_from_puzzle p
  = Ok (Py.join [newline_char]
          (chunks (Nat.sqrt (length p))
                  (S ((length p - 1) / Nat.sqrt (length p))) p)).
Proof.
  intros Hp. pose proof (sqrt_pos_length p Hp) as Hn.
  unfold rows_from_puzzle. cbv zeta. rewrite size_nat_sqrt.
  unfold Py.len at 1. rewrite range_from_zero, bind_Ok; [|done|].
  - unfold chunks. rewrite map_map. do 2 f_equal.
    apply map_ext. intros k. apply slice_chunk.
  - destruct p; [done|simpl; lia].
Qed.

Lemma rows_from_puzzle_empty : rows_from_puzzle [] = Raise ValueError.
Proof. reflexivity. Qed.

(** The chunks cover the string, and the last one is not empty. *)
Lemma cover_bounds len n :
  0 < n → 0 < len →
  (len - 1) / n * n < len ∧ len ≤ S ((len - 1) / n) * n.
Proof.
  intros Hn Hlen.
  pose proof (Nat.div_mod (len - 1) n ltac:(lia)) as Hdm.
  pose proof (Nat.mod_upper_bound (len - 1) n ltac:(lia)). nia.
Qed.

Lemma chunk_length_min n p k :
  length (chunk n p k) = n `min` (length p - k * n).
Proof. unfold chunk. by rewrite length_take, length_drop. Qed.

Lemma elem_of_join c sep rows :
  c ∈ Py.join sep rows → c ∈ sep ∨ c ∈ concat rows.
Proof.
  induction rows as [|r [|r' rows] IH]; intros Hc.
  - by apply elem_of_nil in Hc.
  - right. simpl in *. by rewrite app_nil_r.
  - rewrite join_cons in Hc by done.
    change (concat (r :: r' :: rows)) with (r ++ concat (r' :: rows)).
    rewrite !elem_of_app in Hc. rewrite elem_of_app.
    destruct Hc as [?|[?|Hc]]; [tauto|tauto|]. apply IH in Hc. tauto.
Qed.

Lemma spaced_row_length s : length (spaced_row s) = 2 * length s.
Proof. induction s as [|c s IH]; [done|]. simpl. rewrite IH. lia. Qed.

Lemma spaced_row_lookup s k c :
  s !! k = Some c →
  spaced_row s !! (2 * k) = Some space_char ∧ spaced_row s !! (2 * k + 1) = Some c.
Proof.
  revert k. induction s as [|a s IH]; intros k Hk; [done|].
  destruct k as [|k]; simpl in Hk.
  - injection Hk as ->. done.
  - replace (2 * S k) with (S (S (2 * k))) by lia.
    replace (S (S (2 * k)) + 1) with (S (S (2 * k + 1))) by lia.
    simpl. by apply IH.
Qed.

Lemma without_spaces_spaced_row s :
  space_char ∉ s → without_spaces (spaced_row s) = s.
Proof.
  unfold without_spaces. induction s as [|a s IH]; [done|].
  rewrite not_elem_of_cons. intros [Hne Hs]. simpl.
  rewrite filter_cons, decide_False by (intros Hn; by apply Hn).
  rewrite filter_cons, decide_True by congruence. by rewrite IH.
Qed.

End any_length.

Section any_length_rows.
Implicit Types (s p r sep : str) (rows : list str) (c : ascii) (i j k n m : nat).

(** What the rows of a string that is not empty look like. *)
Lemma rows_shape p :
  p ≠ [] →
  let n := Nat.sqrt (length p) in
  let rows := chunks n (S ((length p - 1) / n)) p in
  concat rows = p
  ∧ Forall (λ r, 0 < length r ≤ n) rows
  ∧ (∀ k r, rows !! k = Some r → S k < length rows → length r = n).
Proof.
  intros Hp n rows. pose proof (sqrt_pos_length p Hp) as Hn. fold n in Hn.
  assert (0 < length p) as Hlen by (destruct p; [done|simpl; lia]).
  destruct (cover_bounds (length p) n Hn Hlen) as [Hlast Hcover].
  split; [|split].
  - unfold rows. rewrite chunks_concat. by apply take_ge.
  - apply Forall_forall. intros r Hr.
    apply list_elem_of_fmap in Hr as (k & -> & Hk).
    apply elem_of_seq in Hk. rewrite chunk_length_min.
    assert (k * n ≤ (length p - 1) / n * n) by (apply Nat.mul_le_mono_r; lia).
    lia.
  - intros k r Hr Hk. unfold rows in Hk. rewrite chunks_length in Hk.
    unfold rows in Hr. rewrite chunks_lookup in Hr by lia.
    injection Hr as <-. rewrite chunk_length_min.
    assert (S k * n ≤ (length p - 1) / n * n) by (apply Nat.mul_le_mono_r; lia).
    lia.
Qed.

Lemma join_nil_concat sep rows : Py.join sep rows = [] → concat rows = [].
Proof.
  induction rows as [|r [|r' rows] IH]; intros Hnil; [done|..].
  - simpl in *. by rewrite Hnil.
  - rewrite join_cons in Hnil by done.
    apply app_eq_nil in Hnil as [-> Hnil]. apply app_eq_nil in Hnil as [_ Hnil].
    by apply IH.
Qed.

Lemma rows_text_nonempty p text : rows_from_puzzle p = Ok text → p ≠ [] ∧ text ≠ [].
Proof.
  intros Hrows. destruct (decide (p = [])) as [->|Hp]; [done|].
  split; [done|]. rewrite rows_from_puzzle_nonempty in Hrows by done.
  assert (Py.join [newline_char]
            (chunks (Nat.sqrt (length p))
                    (S ((length p - 1) / Nat.sqrt (length p))) p) = text)
    as Htext by congruence.
  destruct (rows_shape p Hp) as (Hcat & _). cbv zeta in Hcat.
  intros ->. apply join_nil_concat in Htext. congruence.
Qed.

End any_length_rows.

(** X5. [rows_from_puzzle] raises [ValueError] on the empty string and on no
    other.  A string that is not empty, square or not, is cut into rows of
    [floor(sqrt(len))] symbols, the last row holding what is left (at least
    one symbol); the rows put end to end are the string, and when the string
    has no newline of its own, splitting the text at newlines gives the rows
    and deleting the newlines gives the string. *)
Theorem rows_from_puzzle_any_string (p : str) :
  (rows_from_puzzle p = Raise ValueError ↔ p = [])
  ∧ (p ≠ [] →
     ∃ rows,
       rows_from_puzzle p = Ok (Py.join [newline_char] rows)
       ∧ concat rows = p
       ∧ Forall (λ r, 0 < length r ≤ Nat.sqrt (length p)) rows
       ∧ (∀ k r, rows !! k = Some r → S k < length rows →
                 length r = Nat.sqrt (length p))
       ∧ (newline_char ∉ p →
          split_at newline_char (Py.join [newline_char] rows) = rows
          ∧ without_newlines (Py.join [newline_char] rows) = p)).
Proof.
  split.
  - split; [|by intros ->].
    intros Hraise. destruct (decide (p = [])) as [|Hp]; [done|].
    by rewrite rows_from_puzzle_nonempty in Hraise.
  - intros Hp. destruct (rows_shape p Hp) as (Hcat & Hall & Hfull).
    set (rows := chunks _ _ p) in *. exists rows.
    split; [by apply rows_from_puzzle_nonempty|].
    split; [done|]. split; [done|]. split; [done|]. intros Hnl.
    assert (Forall (λ r, newline_char ∉ r) rows) as Hrows.
    { apply Forall_forall. intros r Hr Hc.
      apply list_elem_of_fmap in Hr as (k & -> & _).
      by apply chunk_elem in Hc. }
    split.
    + apply split_at_join; [|done]. intros Hnil.
      rewrite Hnil in Hcat. simpl in Hcat. congruence.
    + by rewrite without_newlines_join.
Qed.

(** X6. [space_puzzle] raises [ValueError] on the empty string and on no
    other.  Otherwise its text is twice as long as the text of
    [rows_from_puzzle]: the characters of that text at the odd positions,
    each with a space before it; and when the puzzle holds no space,
    deleting the spaces gives that text back. *)
Theorem space_puzzle_any_string (p : str) :
  (space_puzzle p = Raise ValueError ↔ p = [])
  ∧ (∀ text, rows_from_puzzle p = Ok text →
       ∃ s, space_puzzle p = Ok s
            ∧ length s = 2 * length text
            ∧ (∀ k c, text !! k = Some c →
                      s !! (2 * k) = Some space_char ∧ s !! (2 * k + 1) = Some c)
            ∧ (space_char ∉ p → without_spaces s = text)).
Proof.
  split.
  - split; [|by intros ->].
    intros Hraise. destruct (decide (p = [])) as [|Hp]; [done|].
    unfold space_puzzle in Hraise.
    by rewrite rows_from_puzzle_nonempty in Hraise.
  - intros text Hrows. destruct (rows_text_nonempty _ _ Hrows) as [Hp Htext].
    exists (spaced_row text). split.
    { unfold space_puzzle. rewrite Hrows, bind_Ok. f_equal.
      by apply space_before_each. }
    split; [apply spaced_row_length|]. split; [apply spaced_row_lookup|].
    intros Hsp. apply without_spaces_spaced_row. intros Hin.
    rewrite rows_from_puzzle_nonempty in Hrows by done.
    assert (text = Py.join [newline_char]
              (chunks (Nat.sqrt (length p))
                      (S ((length p - 1) / Nat.sqrt (length p))) p))
      as -> by congruence.
    apply elem_of_join in Hin as [Hin|Hin].
    + apply list_elem_of_singleton in Hin. done.
    + destruct (rows_shape p Hp) as (Hcat & _). by rewrite Hcat in Hin.
Qed.

(** ** Solved states, by order and blank position *)

Section solved_shape.
Implicit Types (s p r : str) (c : ascii) (i j k n : nat).

#[local] Existing Instances code_le_total code_le_trans code_le_antisymm.

Lemma tiles_app s1 s2 : tiles (s1 ++ s2) = tiles s1 ++ tiles s2.
Proof. apply filter_app. Qed.

Lemma tiles_no_blank s : blank_char ∉ s → tiles s = s.
Proof.
  unfold tiles. induction s as [|a s IH]; [done|].
  rewrite not_elem_of_cons. intros [Hne Hs].
  rewrite filter_cons, decide_True by congruence. by rewrite IH.
Qed.

Lemma count_app c s1 s2 : count c (s1 ++ s2) = count c s1 + count c s2.
Proof. unfold count. by rewrite filter_app, length_app. Qed.

Lemma merge_sort_tiles_no_blank p : blank_char ∉ merge_sort Py.code_le (tiles p).
Proof. apply (sorted_tiles_no_blank p), sorted_tiles_merge_sort. Qed.

(** A sorted list is what sorting it gives. *)
Lemma merge_sort_sorted s : Sorted Py.code_le s → merge_sort Py.code_le s = s.
Proof.
  intros Hs. apply (Sorted_unique Py.code_le); [|done|].
  - apply (Sorted_merge_sort _).
  - apply merge_sort_Permutation.
Qed.

Lemma is_solved_shape p :
  is_solved p = true ↔
  ∃ s, (blank_char ∉ s) ∧ Sorted Py.code_le s
       ∧ (p = s ++ [blank_char] ∨ p = blank_char :: s).
Proof.
  rewrite is_solved_unfold. split.
  - intros Hp. exists (merge_sort Py.code_le (tiles p)).
    split; [apply merge_sort_tiles_no_blank|].
    split; [apply (Sorted_merge_sort _)|done].
  - intros (s & Hnb & Hsort & [->| ->]).
    + left. rewrite tiles_app, (tiles_no_blank s) by done.
      change (tiles [blank_char]) with (@nil ascii).
      by rewrite app_nil_r, merge_sort_sorted.
    + right. change (blank_char :: s) with ([blank_char] ++ s) at 2.
      rewrite tiles_app, (tiles_no_blank s) by done.
      change (tiles [blank_char]) with (@nil ascii).
      by rewrite app_nil_l, merge_sort_sorted.
Qed.

(** The blank of a solved state is at its first or at its last position. *)
Lemma is_solved_blank_position p i :
  is_solved p = true → p !! i = Some blank_char → i = 0 ∨ i = length p - 1.
Proof.
  intros (s & Hnb & _ & [->| ->])%is_solved_shape Hi.
  - right. rewrite length_app. simpl.
    destruct (decide (i < length s)) as [Hlt|Hge].
    + rewrite lookup_app_l in Hi by done. exfalso. apply Hnb.
      by eapply list_elem_of_lookup_2.
    + apply lookup_lt_Some in Hi. rewrite length_app in Hi. simpl in Hi. lia.
  - left. destruct i as [|i]; [done|]. simpl in Hi. exfalso. apply Hnb.
    by eapply list_elem_of_lookup_2.
Qed.

End solved_shape.

(** X7. On every string, [is_solved] is the definition of the module's
    docstring together with a count of the blank: it answers true exactly
    when the string holds the blank marker once, at its beginning or at its
    end, and its other symbols are in ascending code-point order. *)
Theorem is_solved_iff_one_blank_at_an_end_ordered (p : str) :
  is_solved p = true ↔
  count blank_char p = 1
  ∧ (head p = Some blank_char ∨ last p = Some blank_char)
  ∧ Sorted Py.code_le (tiles p).
Proof.
  rewrite is_solved_shape. split.
  - intros (s & Hnb & Hsort & [->| ->]).
    + rewrite count_app, tiles_app, (tiles_no_blank s) by done.
      rewrite (proj2 (count_zero _ _) Hnb).
      split; [done|]. split; [right; apply last_snoc|].
      change (tiles [blank_char]) with (@nil ascii). by rewrite app_nil_r.
    + change (blank_char :: s) with ([blank_char] ++ s).
      rewrite count_app, tiles_app, (tiles_no_blank s) by done.
      rewrite (proj2 (count_zero _ _) Hnb).
      split; [done|]. split; [by left|done].
  - intros (Hcnt & [Hhead|Hlast] & Hsort).
    + destruct p as [|a r]; [done|]. injection Hhead as ->.
      change (blank_char :: r) with ([blank_char] ++ r) in Hcnt, Hsort.
      rewrite count_app in Hcnt.
      assert (blank_char ∉ r) as Hnb
          by (apply count_zero; change (count blank_char [blank_char]) with 1 in Hcnt; lia).
      rewrite tiles_app, (tiles_no_blank r) in Hsort by done.
      exists r. split; [done|]. split; [done|by right].
    + apply last_Some in Hlast as [r ->]. rewrite count_app in Hcnt.
      assert (blank_char ∉ r) as Hnb
          by (apply count_zero; change (count blank_char [blank_char]) with 1 in Hcnt; lia).
      rewrite tiles_app, (tiles_no_blank r) in Hsort by done.
      change (tiles [blank_char]) with (@nil ascii) in Hsort.
      rewrite app_nil_r in Hsort.
      exists r. split; [done|]. split; [done|by left].
Qed.

(** ** Moves from a solved state, and moves taken back *)

Section move_composition.
Implicit Types (s p t : str) (c a : ascii) (i j k n : nat).

(** A cell next to the first or to the last cell of a board of side at least
    two is neither the first nor the last cell. *)
Lemma corner_neighbour_interior n i j :
  2 ≤ n → i < n * n → j = 0 ∨ j = n * n - 1 →
  orth_adjacent n i j → 0 < i < n * n - 1.
Proof.
  intros Hn Hi Hj. unfold orth_adjacent, row, col.
  pose proof (Nat.div_mod i n ltac:(lia)) as Hdm.
  pose proof (Nat.mod_upper_bound i n ltac:(lia)) as Hub.
  destruct Hj as [->| ->].
  - rewrite Nat.Div0.div_0_l, Nat.Div0.mod_0_l.
    generalize dependent (i / n). generalize dependent (i mod n).
    intros c Hc r Hr Hadj. nia.
  - assert ((n * n - 1) / n = n - 1) as ->.
    { symmetry. apply (Nat.div_unique _ _ _ (n - 1)); nia. }
    assert ((n * n - 1) mod n = n - 1) as ->.
    { symmetry. apply (Nat.mod_unique _ _ (n - 1)); nia. }
    generalize dependent (i / n). generalize dependent (i mod n).
    intros c Hc r Hr Hadj. nia.
Qed.

Lemma adjacent_test_sym (size x y : Z) :
  adjacent_test size x y = adjacent_test size y x.
Proof.
  unfold adjacent_test. cbv zeta.
  replace (Z.abs (y / size - x / size)) with (Z.abs (x / size - y / size)) by lia.
  by replace (Z.abs (y mod size - x mod size))
       with (Z.abs (x mod size - y mod size)) by lia.
Qed.

Lemma is_legal_move_true_found p t :
  is_legal_move p t = Ok true →
  t ≠ [blank_char]
  ∧ ∃ i j, Py.find p [blank_char] = Some j ∧ Py.find p t = Some i
           ∧ adjacent_test (Py.int_sqrt (Py.len p)) (Z.of_nat i) (Z.of_nat j) = true.
Proof.
  intros Hl. assert (t ≠ [blank_char]) as Ht.
  { intros ->. by rewrite is_legal_move_blank in Hl. }
  split; [done|].
  destruct (Py.find p [blank_char]) as [j|] eqn:Hj;
    [|rewrite is_legal_move_not_found in Hl by auto; done].
  destruct (Py.find p t) as [i|] eqn:Hi;
    [|rewrite is_legal_move_not_found in Hl by auto; done].
  rewrite (is_legal_move_found p t i j) in Hl by done.
  exists i, j. split; [done|]. split; [done|congruence].
Qed.

End move_composition.

(** X8. From a solved valid state every legal move leads to a state that
    is not solved: the tile moved is next to the corner that held the
    blank, so the blank ends at an interior position. *)
Theorem legal_move_unsolves_solved_state (p t p' : str) :
  valid_state p = true → is_solved p = true →
  is_legal_move p t = Ok true → puzzle_with_move p t = Ok p' →
  is_solved p' = false.
Proof.
  intros Hv Hsolved Hlegal Hmove.
  destruct (valid_side _ Hv) as (n & Hn & Hlen).
  destruct (is_legal_move_true_found _ _ Hlegal) as (Ht & i & j & Hj & Hi & Hadj).
  destruct (puzzle_with_move_found p t i j Ht Hj Hi) as (a & Ha & Hp').
  assert (p' = <[i:=blank_char]> (<[j:=a]> p)) as -> by congruence.
  rewrite (size_of_square _ _ Hlen) in Hadj. apply adjacent_test_spec in Hadj.
  assert (p !! j = Some blank_char) as Hpj
    by (by apply find_char_Some in Hj as [? _]).
  assert (i < n * n) as Hilt by (rewrite <- Hlen; by eapply lookup_lt_Some).
  assert (0 < i < n * n - 1) as Hint.
  { apply (corner_neighbour_interior n i j); [lia|done| |done].
    rewrite <- Hlen. by apply is_solved_blank_position. }
  apply not_true_is_false. intros Hs.
  apply (is_solved_blank_position _ i) in Hs.
  - rewrite !length_insert in Hs. lia.
  - apply list_lookup_insert_eq. rewrite length_insert. lia.
Qed.

Lemma legal_move_unsolves_solved_state_witness :
  valid_state (lit "12345678-") = true ∧ is_solved (lit "12345678-") = true
  ∧ is_legal_move (lit "12345678-") (lit "6") = Ok true
  ∧ puzzle_with_move (lit "12345678-") (lit "6") = Ok (lit "12345-786")
  ∧ is_solved (lit "12345-786") = false.
Proof.
  split; [reflexivity|]. split; [reflexivity|]. split; [reflexivity|].
  split; [reflexivity|].
  apply (legal_move_unsolves_solved_state (lit "12345678-") (lit "6"));
    reflexivity.
Defined.

(** X9. A move can be taken back: in a valid state, after a legal move of a
    tile whose symbol occurs once, [is_legal_move] accepts the same tile in
    the new state. *)
Theorem moved_tile_is_legal_again (p : str) (c : ascii) (p' : str) :
  valid_state p = true → count c p = 1 →
  is_legal_move p [c] = Ok true → puzzle_with_move p [c] = Ok p' →
  is_legal_move p' [c] = Ok true.
Proof.
  intros Hv Hone Hlegal Hmove.
  destruct (valid_side _ Hv) as (n & Hn & Hlen).
  destruct (is_legal_move_true_found _ _ Hlegal) as (Ht & i & j & Hj & Hi & Hadj).
  assert (c ≠ blank_char) as Hc by congruence.
  apply find_char_Some in Hi, Hj.
  rewrite (puzzle_with_move_leftmost p c i j) in Hmove by done.
  assert (p' = <[i:=blank_char]> (<[j:=c]> p)) as -> by congruence.
  assert (i ≠ j) as Hij.
  { intros ->. destruct Hi as [Hi _], Hj as [Hj _]. congruence. }
  pose proof (exchange_lookup p c i j) as Hlook.
  specialize (λ k, Hlook k Hij (proj1 Hi) (proj1 Hj)).
  rewrite (is_legal_move_leftmost _ c n j i); [| done | lia | | |].
  - rewrite (size_of_square _ _ Hlen) in Hadj. by rewrite adjacent_test_sym, Hadj.
  - by rewrite !length_insert.
  - split.
    + rewrite Hlook, decide_False by done. by rewrite decide_True.
    + intros k Hk. rewrite Hlook.
      destruct (decide (k = i)) as [->|Hki]; [congruence|].
      rewrite decide_False by lia. intros Hpk. apply Hki.
      eapply count_one_position; [done|done|apply Hi].
  - split.
    + by rewrite Hlook, decide_True.
    + intros k Hk. rewrite Hlook, decide_False by lia.
      destruct (decide (k = j)) as [->|Hkj]; [congruence|].
      intros Hpk. apply Hkj.
      apply (valid_blank_unique p k j Hv Hpk (proj1 Hj)).
Qed.

Lemma moved_tile_is_legal_again_witness :
  valid_state (lit "12345678-") = true ∧ count "6"%char (lit "12345678-") = 1
  ∧ is_legal_move (lit "12345678-") ["6"%char] = Ok true
  ∧ puzzle_with_move (lit "12345678-") ["6"%char] = Ok (lit "12345-786")
  ∧ is_legal_move (lit "12345-786") ["6"%char] = Ok true.
Proof.
  split; [reflexivity|]. split; [reflexivity|]. split; [reflexivity|].
  split; [reflexivity|].
  apply (moved_tile_is_legal_again (lit "12345678-") "6"%char); reflexivity.
Defined.

(** ** The game loop *)

Section game_steps.
Implicit Types (s p q t line : str) (w : Console.world) (m : Z) (fuel : nat).

(** One test of the inner loop. *)
Lemma ask_tile_S fuel p t w :
  ask_tile (S fuel) p t w
  = match is_legal_move p t with
    | Ok true => (inl t, w)
    | Ok false =>
        match Console.stdin w with
        | [] =>
            (inr Console.RaisedEOFError,
             Console.World [] (Console.stdout w ++ [tile_prompt]))
        | line :: rest =>
            ask_tile fuel p line
              (Console.World rest (Console.stdout w ++ [tile_prompt]))
        end
    | Raise e => (inr (Console.Raised e), w)
    end.
Proof.
  cbn [ask_tile]. unfold mbind, Console.io_bind, Console.call, Console.input.
  destruct (is_legal_move p t) as [[|]|e]; [done| |done].
  simpl. by destruct (Console.stdin w).
Qed.

(** One test of the outer loop. *)
Lemma play_loop_S fuel p m w :
  play_loop (S fuel) p m w
  = if is_solved p then (inl (p, m), w)
    else match space_puzzle p with
         | Raise e => (inr (Console.Raised e), w)
         | Ok spaced =>
             match ask_tile (S fuel) p [blank_char] (announced spaced (m + 1) w) with
             | (inl t, w') =>
                 match puzzle_with_move p t with
                 | Ok p' => play_loop fuel p' (m + 1)%Z w'
                 | Raise e => (inr (Console.Raised e), w')
                 end
             | (inr e, w') => (inr e, w')
             end
         end.
Proof.
  cbn [play_loop]. destruct (is_solved p); [reflexivity|]. cbn [negb].
  unfold mbind, Console.io_bind, Console.call, Console.print, announced.
  destruct (space_puzzle p) as [spaced|e]; [|reflexivity].
  cbn [Console.stdin Console.stdout].
  destruct (ask_tile (S fuel) p [blank_char] _) as [[t|e] w']; [|reflexivity].
  by destruct (puzzle_with_move p t).
Qed.

End game_steps.

Section game_facts.
Implicit Types (s p q t line : str) (w : Console.world) (m : Z) (fuel : nat).
Implicit Types (consumed written : list str).

Lemma is_legal_move_Raise_inv p t e : is_legal_move p t = Raise e → e = ValueError.
Proof.
  intros Hr. destruct (decide (t = [blank_char])) as [->|Ht].
  { by rewrite is_legal_move_blank in Hr. }
  destruct (Py.find p [blank_char]) as [j|] eqn:Hj;
    [|rewrite is_legal_move_not_found in Hr by auto; congruence].
  destruct (Py.find p t) as [i|] eqn:Hi;
    [|rewrite is_legal_move_not_found in Hr by auto; congruence].
  by rewrite (is_legal_move_found p t i j) in Hr.
Qed.

Lemma puzzle_with_move_Raise_inv p t e :
  puzzle_with_move p t = Raise e → e = ValueError.
Proof.
  intros Hr. destruct (decide (t = [blank_char])) as [->|Ht].
  { unfold puzzle_with_move in Hr. by rewrite bool_decide_eq_true_2 in Hr. }
  destruct (Py.find p [blank_char]) as [j|] eqn:Hj;
    [|rewrite puzzle_with_move_not_found in Hr by auto; congruence].
  destruct (Py.find p t) as [i|] eqn:Hi;
    [|rewrite puzzle_with_move_not_found in Hr by auto; congruence].
  destruct (puzzle_with_move_found p t i j Ht Hj Hi) as (a & _ & Heq).
  congruence.
Qed.

Lemma space_puzzle_nonempty p : p ≠ [] → ∃ spaced, space_puzzle p = Ok spaced.
Proof.
  intros Hp. unfold space_puzzle.
  rewrite rows_from_puzzle_nonempty by done. rewrite bind_Ok. by eexists.
Qed.

Lemma space_puzzle_Raise_inv p e : space_puzzle p = Raise e → e = ValueError.
Proof.
  intros Hr. destruct (decide (p = [])) as [->|Hp].
  - vm_compute in Hr. congruence.
  - destruct (space_puzzle_nonempty p Hp) as [spaced Hs]. congruence.
Qed.

Lemma is_solved_nonempty p : is_solved p = true → p ≠ [].
Proof. by intros Hs ->. Qed.

Lemma advanced_refl w : advanced w w [] [].
Proof. split; [done|by rewrite app_nil_r]. Qed.

Lemma advanced_trans w1 w2 w3 consumed1 written1 consumed2 written2 :
  advanced w1 w2 consumed1 written1 → advanced w2 w3 consumed2 written2 →
  advanced w1 w3 (consumed1 ++ consumed2) (written1 ++ written2).
Proof.
  intros [Hin1 Hout1] [Hin2 Hout2]. split.
  - by rewrite Hin1, Hin2, app_assoc.
  - by rewrite Hout2, Hout1, app_assoc.
Qed.

(** The inner loop, given more tests than there are lines to read. *)
Lemma ask_tile_spec fuel p t w r w' :
  length (Console.stdin w) < fuel →
  ask_tile fuel p t w = (r, w') →
  ∃ consumed written,
    advanced w w' consumed written
    ∧ match r with
      | inl t' =>
          is_legal_move p t' = Ok true
          ∧ ∃ rejected,
              t :: consumed = rejected ++ [t']
              ∧ Forall (λ x, is_legal_move p x = Ok false) rejected
      | inr (Console.Raised e) => e = ValueError
      | inr Console.RaisedEOFError => Console.stdin w' = []
      | inr Console.OutOfFuel => False
      end.
Proof.
  revert t w. induction fuel as [|fuel IH]; intros t w Hfuel Hrun; [lia|].
  rewrite ask_tile_S in Hrun.
  destruct (is_legal_move p t) as [[|]|e] eqn:Hlegal.
  - injection Hrun as <- <-. exists [], [].
    split; [apply advanced_refl|]. split; [done|]. by exists [].
  - destruct w as [[|line rest] out]; cbn [Console.stdin Console.stdout] in *.
    + injection Hrun as <- <-. exists [], [tile_prompt]. by split.
    + apply IH in Hrun as (consumed & written & [Hin Hout] & Hr);
        [|simpl in *; lia].
      cbn [Console.stdin Console.stdout] in Hin, Hout.
      exists (line :: consumed), (tile_prompt :: written). split.
      { split; cbn [Console.stdin Console.stdout].
        - by rewrite Hin.
        - by rewrite Hout, <- app_assoc. }
      destruct r as [t'|[e| |]]; try done.
      destruct Hr as (Ht' & rejected & Heq & Hbad). split; [done|].
      exists (t :: rejected). split; [by rewrite Heq|by apply Forall_cons].
  - injection Hrun as <- <-. exists [], [].
    split; [apply advanced_refl|]. by apply is_legal_move_Raise_inv in Hlegal.
Qed.

End game_facts.

Section game_loop_facts.
Implicit Types (s p q t line : str) (w : Console.world) (m : Z) (fuel : nat).
Implicit Types (consumed written : list str).

Lemma announced_advanced spaced m w :
  ∃ written, advanced w (announced spaced m w) [] written.
Proof.
  eexists. split; [done|]. unfold announced. cbn [Console.stdout].
  by rewrite <- app_assoc.
Qed.

(** The outer loop, given more tests than there are lines to read. *)
Lemma play_loop_spec fuel p m w r w' :
  length (Console.stdin w) < fuel →
  play_loop fuel p m w = (r, w') →
  ∃ consumed written,
    advanced w w' consumed written
    ∧ match r with
      | inl (q, m') =>
          (m ≤ m')%Z ∧ game_run p consumed q (Z.to_nat (m' - m))
      | inr (Console.Raised e) => e = ValueError
      | inr Console.RaisedEOFError => Console.stdin w' = []
      | inr Console.OutOfFuel => False
      end.
Proof.
  revert p m w. induction fuel as [|fuel IH]; intros p m w Hfuel Hrun; [lia|].
  rewrite play_loop_S in Hrun.
  destruct (is_solved p) eqn:Hsolved.
  { injection Hrun as <- <-. exists [], [].
    split; [apply advanced_refl|]. split; [lia|].
    rewrite Z.sub_diag. by constructor. }
  destruct (space_puzzle p) as [spaced|e] eqn:Hspaced.
  2:{ injection Hrun as <- <-. exists [], [].
      split; [apply advanced_refl|]. by apply space_puzzle_Raise_inv in Hspaced. }
  destruct (announced_advanced spaced (m + 1) w) as [written0 Hadv0].
  destruct (ask_tile (S fuel) p [blank_char] (announced spaced (m + 1) w))
    as [r1 w1] eqn:Hask.
  apply ask_tile_spec in Hask as (consumed1 & written1 & Hadv1 & Hr1);
    [|unfold announced; cbn [Console.stdin]; lia].
  pose proof (advanced_trans _ _ _ _ _ _ _ Hadv0 Hadv1) as Hadv01.
  destruct r1 as [t|e].
  2:{ injection Hrun as <- <-. exists ([] ++ consumed1), (written0 ++ written1).
      split; [done|]. by destruct e. }
  destruct Hr1 as (Hlegal & rejected & Heq & Hbad).
  destruct rejected as [|x rejected].
  { injection Heq as <- _. by rewrite is_legal_move_blank in Hlegal. }
  injection Heq as <- Heq. apply Forall_cons in Hbad as [_ Hbad].
  destruct (puzzle_with_move p t) as [p'|e] eqn:Hmove.
  2:{ injection Hrun as <- <-. exists ([] ++ consumed1), (written0 ++ written1).
      split; [done|]. by apply puzzle_with_move_Raise_inv in Hmove. }
  assert (length (Console.stdin w1) < fuel) as Hfuel1.
  { destruct Hadv01 as [Hin _]. rewrite Hin, Heq, !length_app in Hfuel.
    simpl in Hfuel. lia. }
  apply IH in Hrun as (consumed2 & written2 & Hadv2 & Hr); [|done].
  exists (([] ++ consumed1) ++ consumed2), ((written0 ++ written1) ++ written2).
  split; [by eapply advanced_trans|].
  destruct r as [[q m']|[e| |]]; try done.
  destruct Hr as (Hm & Hgame). split; [lia|].
  replace (Z.to_nat (m' - m)) with (S (Z.to_nat (m' - (m + 1)))) by lia.
  rewrite app_nil_l, Heq, <- app_assoc. by eapply game_turn.
Qed.

(** [play_puzzle] in terms of its loop. *)
Lemma play_puzzle_unfold p w :
  play_puzzle p w
  = match play_loop (S (length (Console.stdin w))) p 0 w with
    | (inl (q, m), w1) =>
        match space_puzzle q with
        | Ok spaced =>
            (inl (),
             Console.World (Console.stdin w1)
               (Console.stdout w1 ++ solved_report spaced m))
        | Raise e => (inr (Console.Raised e), w1)
        end
    | (inr e, w1) => (inr e, w1)
    end.
Proof.
  unfold play_puzzle. cbv zeta.
  unfold mbind, Console.io_bind, Console.call, Console.print, solved_report.
  destruct (play_loop _ p 0 w) as [[[q m]|e] w1]; [|done].
  cbn [fst snd]. destruct (space_puzzle q); [|done].
  cbn [Console.stdin Console.stdout]. by rewrite <- app_assoc.
Qed.

End game_loop_facts.

Section game_runs.
Implicit Types (s p q t line : str) (w : Console.world) (m : nat) (fuel : nat).
Implicit Types (answers rejected rest out consumed written : list str).

(** What a finished game went through. *)
Lemma game_run_facts p answers q m :
  game_run p answers q m →
  is_solved q = true ∧ nsteps legal_step m p q ∧ q ≡ₚ p ∧ m ≤ length answers.
Proof.
  induction 1 as [p Hp|p rejected t p' answers q m Hp Hbad Hlegal Hmove _ IH].
  - split; [done|]. split; [constructor|]. split; [done|simpl; lia].
  - destruct IH as (Hq & Hsteps & Hperm & Hm). split; [done|].
    split; [eapply nsteps_l; [by exists t|done]|].
    split; [by rewrite Hperm, (puzzle_with_move_Permutation _ _ _ Hmove)|].
    rewrite length_app. simpl. lia.
Qed.

(** The inner loop on answers turned down, then one accepted. *)
Lemma ask_tile_accepts rejected fuel p t0 t rest out :
  is_legal_move p t0 = Ok false →
  Forall (λ x, is_legal_move p x = Ok false) rejected →
  is_legal_move p t = Ok true →
  length rejected + 1 < fuel →
  ask_tile fuel p t0 (Console.World (rejected ++ t :: rest) out)
  = (inl t,
     Console.World rest (out ++ replicate (S (length rejected)) tile_prompt)).
Proof.
  revert fuel t0 out.
  induction rejected as [|x rejected IH]; intros fuel t0 out Ht0 Hbad Ht Hfuel.
  - destruct fuel as [|[|fuel]]; [simpl in Hfuel; lia..|].
    rewrite ask_tile_S, Ht0. cbn [Console.stdin Console.stdout app].
    by rewrite ask_tile_S, Ht.
  - destruct fuel as [|fuel]; [lia|]. apply Forall_cons in Hbad as [Hx Hbad].
    rewrite ask_tile_S, Ht0. cbn [Console.stdin Console.stdout app].
    rewrite IH by (done || simpl in Hfuel; lia).
    by rewrite <- app_assoc.
Qed.

Lemma legal_nonempty p t : is_legal_move p t = Ok true → p ≠ [].
Proof.
  intros (_ & i & j & Hj & _)%is_legal_move_true_found ->. by simpl in Hj.
Qed.

(** The outer loop on the answers of a game. *)
Lemma play_loop_game_run p answers q m :
  game_run p answers q m →
  ∀ fuel (m0 : Z) rest out,
    length (answers ++ rest) < fuel →
    ∃ written,
      play_loop fuel p m0 (Console.World (answers ++ rest) out)
      = (inl (q, (m0 + Z.of_nat m)%Z), Console.World rest (out ++ written)).
Proof.
  induction 1 as [p Hp|p rejected t p' answers q m Hp Hbad Hlegal Hmove _ IH];
    intros fuel m0 rest out Hfuel.
  - destruct fuel as [|fuel]; [lia|]. exists [].
    rewrite play_loop_S, Hp. by rewrite Z.add_0_r, app_nil_r.
  - destruct fuel as [|fuel]; [lia|].
    destruct (space_puzzle_nonempty p (legal_nonempty _ _ Hlegal)) as [spaced Hs].
    rewrite play_loop_S, Hp, Hs. unfold announced.
    cbn [Console.stdin Console.stdout].
    rewrite <- app_assoc. cbn [app].
    rewrite !length_app in Hfuel. simpl in Hfuel.
    rewrite (ask_tile_accepts rejected); [|apply is_legal_move_blank|done..|lia].
    rewrite Hmove.
    match goal with
    | |- context [Console.World (answers ++ rest) ?o] =>
        destruct (IH fuel (m0 + 1)%Z rest o) as [written Hrun];
          [rewrite length_app; lia|]
    end.
    eexists. rewrite Hrun.
    replace (m0 + 1 + Z.of_nat m)%Z with (m0 + Z.of_nat (S m))%Z by lia.
    rewrite <- !app_assoc. reflexivity.
Qed.

End game_runs.

(** X10. On every puzzle and every finite input, [play_puzzle] stops, and in
    one of three ways: it returns, it raises [ValueError], or it raises the
    [EOFError] of [input], the last only once every line has been read.  The
    bound on the tests of its loops is never reached. *)
Theorem play_puzzle_ends (p : str) (w : Console.world) :
  ((play_puzzle p w).1 = inl ()
   ∨ (play_puzzle p w).1 = inr (Console.Raised ValueError)
   ∨ (play_puzzle p w).1 = inr Console.RaisedEOFError)
  ∧ ((play_puzzle p w).1 = inr Console.RaisedEOFError →
     Console.stdin (play_puzzle p w).2 = []).
Proof.
  rewrite play_puzzle_unfold.
  destruct (play_loop (S (length (Console.stdin w))) p 0 w) as [r w1] eqn:Hrun.
  apply play_loop_spec in Hrun as (consumed & written & _ & Hr); [|lia].
  destruct r as [[q m]|[e| |]]; cbn [fst snd].
  - destruct (space_puzzle q) as [spaced|e] eqn:Hs; cbn [fst snd].
    + split; [by left|done].
    + apply space_puzzle_Raise_inv in Hs as ->. split; [right; by left|done].
  - subst e. split; [right; by left|done].
  - split; [right; by right|done].
  - done.
Qed.

(** X11. On a puzzle that is already solved, [play_puzzle] reads nothing,
    writes the two closing lines with a count of 0 moves, and returns. *)
Theorem play_puzzle_already_solved (p : str) (w : Console.world) :
  is_solved p = true →
  ∃ spaced,
    space_puzzle p = Ok spaced
    ∧ play_puzzle p w
      = (inl (),
         Console.World (Console.stdin w)
           (Console.stdout w ++ solved_report spaced 0)).
Proof.
  intros Hp.
  destruct (space_puzzle_nonempty p (is_solved_nonempty p Hp)) as [spaced Hs].
  exists spaced. split; [done|].
  by rewrite play_puzzle_unfold, play_loop_S, Hp, Hs.
Qed.

Lemma play_puzzle_already_solved_witness :
  is_solved (lit "123-") = true
  ∧ ∃ spaced,
      space_puzzle (lit "123-") = Ok spaced
      ∧ play_puzzle (lit "123-") (Console.World [lit "3"] [])
        = (inl (),
           Console.World (Console.stdin (Console.World [lit "3"] []))
             (Console.stdout (Console.World [lit "3"] [])
              ++ solved_report spaced 0)).
Proof.
  split; [reflexivity|].
  apply (play_puzzle_already_solved (lit "123-") (Console.World [lit "3"] [])).
  reflexivity.
Defined.

(** X12. When [play_puzzle] returns, the lines it has read are the answers
    of a game played to its end: runs of answers that [is_legal_move] turned
    down, each followed by an accepted one that [puzzle_with_move] applied.
    The last state is solved and is a rearrangement of the first; the count
    in the closing lines is the number of accepted answers, and the lines
    left on the input were not read. *)
Theorem play_puzzle_returns_after_game (p : str) (w w' : Console.world) :
  play_puzzle p w = (inl (), w') →
  ∃ answers q m spaced written,
    Console.stdin w = answers ++ Console.stdin w'
    ∧ game_run p answers q m
    ∧ is_solved q = true ∧ nsteps legal_step m p q ∧ q ≡ₚ p
    ∧ m ≤ length answers
    ∧ space_puzzle q = Ok spaced
    ∧ Console.stdout w'
      = Console.stdout w ++ written ++ solved_report spaced (Z.of_nat m).
Proof.
  rewrite play_puzzle_unfold.
  destruct (play_loop (S (length (Console.stdin w))) p 0 w) as [r w1] eqn:Hrun.
  apply play_loop_spec in Hrun as (consumed & written & [Hin Hout] & Hr); [|lia].
  destruct r as [[q m]|e]; [|done].
  destruct Hr as [Hm Hgame]. rewrite Z.sub_0_r in Hgame.
  destruct (space_puzzle q) as [spaced|e] eqn:Hs; [|done].
  intros [= <-]. cbn [Console.stdin Console.stdout].
  destruct (game_run_facts _ _ _ _ Hgame) as (Hq & Hsteps & Hperm & Hlen).
  exists consumed, q, (Z.to_nat m), spaced, written.
  repeat split; try done.
  rewrite Z2Nat.id by done. by rewrite Hout, <- app_assoc.
Qed.

Lemma play_puzzle_returns_after_game_witness :
  play_puzzle (lit "1-32") (Console.World [lit "-"; lit "2"; lit "7"] [])
  = (inl (),
     (play_puzzle (lit "1-32") (Console.World [lit "-"; lit "2"; lit "7"] [])).2)
  ∧ ∃ answers q m spaced written,
      Console.stdin (Console.World [lit "-"; lit "2"; lit "7"] [])
      = answers
        ++ Console.stdin
             (play_puzzle (lit "1-32")
                (Console.World [lit "-"; lit "2"; lit "7"] [])).2
      ∧ game_run (lit "1-32") answers q m
      ∧ is_solved q = true ∧ nsteps legal_step m (lit "1-32") q
      ∧ q ≡ₚ lit "1-32"
      ∧ m ≤ length answers
      ∧ space_puzzle q = Ok spaced
      ∧ Console.stdout
          (play_puzzle (lit "1-32")
             (Console.World [lit "-"; lit "2"; lit "7"] [])).2
        = Console.stdout (Console.World [lit "-"; lit "2"; lit "7"] [])
          ++ written ++ solved_report spaced (Z.of_nat m).
Proof.
  split; [vm_compute; reflexivity|].
  apply (play_puzzle_returns_after_game (lit "1-32")
           (Console.World [lit "-"; lit "2"; lit "7"] [])).
  vm_compute. reflexivity.
Defined.

(** X13. An answer that does not occur in the puzzle ends the game with an
    exception: on a puzzle that is not empty and not solved, when the first
    line read is not the blank marker and is not a substring of the puzzle,
    [play_puzzle] shows the state and the move number, asks once, reads the
    line and raises [ValueError]. *)
Theorem play_puzzle_unknown_answer_raises
    (p line : str) (rest out : list str) :
  p ≠ [] → is_solved p = false →
  line ≠ [blank_char] → ¬ occurs line p →
  ∃ spaced,
    space_puzzle p = Ok spaced
    ∧ play_puzzle p (Console.World (line :: rest) out)
      = (inr (Console.Raised ValueError),
         Console.World rest
           (Console.stdout (announced spaced 1 (Console.World [] out))
            ++ [tile_prompt])).
Proof.
  intros Hp Hunsolved Hline Hocc.
  destruct (space_puzzle_nonempty p Hp) as [spaced Hs].
  exists spaced. split; [done|].
  rewrite play_puzzle_unfold. cbn [Console.stdin length].
  rewrite play_loop_S, Hunsolved, Hs.
  rewrite ask_tile_S, is_legal_move_blank.
  unfold announced at 1. cbn [Console.stdin Console.stdout].
  rewrite ask_tile_S.
  rewrite (is_legal_move_not_found p line Hline)
    by (right; by apply find_None_occurs).
  done.
Qed.

Lemma play_puzzle_unknown_answer_raises_witness :
  lit "1-32" ≠ [] ∧ is_solved (lit "1-32") = false
  ∧ lit "9" ≠ [blank_char] ∧ ¬ occurs (lit "9") (lit "1-32")
  ∧ ∃ spaced,
      space_puzzle (lit "1-32") = Ok spaced
      ∧ play_puzzle (lit "1-32") (Console.World (lit "9" :: [lit "2"]) [])
        = (inr (Console.Raised ValueError),
           Console.World [lit "2"]
             (Console.stdout (announced spaced 1 (Console.World [] []))
              ++ [tile_prompt])).
Proof.
  assert (¬ occurs (lit "9") (lit "1-32")) as Hocc
    by (apply find_None_occurs; reflexivity).
  split; [discriminate|]. split; [reflexivity|]. split; [discriminate|].
  split; [exact Hocc|].
  apply (play_puzzle_unknown_answer_raises (lit "1-32") (lit "9") [lit "2"] []);
    [discriminate|reflexivity|discriminate|exact Hocc].
Defined.

(** X14. With nothing to read, a puzzle that is not empty and not solved
    ends the game with [EOFError]: [play_puzzle] shows the state and the
    number of the first move, asks once, and [input] raises. *)
Theorem play_puzzle_no_input_raises (p : str) (out : list str) :
  p ≠ [] → is_solved p = false →
  ∃ spaced,
    space_puzzle p = Ok spaced
    ∧ play_puzzle p (Console.World [] out)
      = (inr Console.RaisedEOFError,
         Console.World []
           (Console.stdout (announced spaced 1 (Console.World [] out))
            ++ [tile_prompt])).
Proof.
  intros Hp Hunsolved.
  destruct (space_puzzle_nonempty p Hp) as [spaced Hs].
  exists spaced. split; [done|].
  rewrite play_puzzle_unfold. cbn [Console.stdin length].
  by rewrite play_loop_S, Hunsolved, Hs, ask_tile_S, is_legal_move_blank.
Qed.

Lemma play_puzzle_no_input_raises_witness :
  lit "1-32" ≠ [] ∧ is_solved (lit "1-32") = false
  ∧ ∃ spaced,
      space_puzzle (lit "1-32") = Ok spaced
      ∧ play_puzzle (lit "1-32") (Console.World [] [])
        = (inr Console.RaisedEOFError,
           Console.World []
             (Console.stdout (announced spaced 1 (Console.World [] []))
              ++ [tile_prompt])).
Proof.
  split; [discriminate|]. split; [reflexivity|].
  apply (play_puzzle_no_input_raises (lit "1-32") []);
    [discriminate|reflexivity].
Defined.

(** X15. Every game played to its end is accepted: when the first lines of
    the input are runs of answers that [is_legal_move] turns down, each
    followed by one it accepts, and lead to a solved state, [play_puzzle]
    reads exactly those lines, returns, and reports as many moves as there
    were accepted answers; answers turned down change neither the state nor
    the count. *)
Theorem play_puzzle_accepts_game
    (p : str) (answers : list str) (q : str) (m : nat) (rest out : list str) :
  game_run p answers q m →
  ∃ spaced written,
    space_puzzle q = Ok spaced
    ∧ play_puzzle p (Console.World (answers ++ rest) out)
      = (inl (),
         Console.World rest
           (out ++ written ++ solved_report spaced (Z.of_nat m))).
Proof.
  intros Hgame.
  destruct (game_run_facts _ _ _ _ Hgame) as (Hq & _).
  destruct (space_puzzle_nonempty q (is_solved_nonempty q Hq)) as [spaced Hs].
  destruct (play_loop_game_run _ _ _ _ Hgame
              (S (length (answers ++ rest))) 0%Z rest out) as [written Hrun];
    [lia|].
  exists spaced, written. split; [done|].
  rewrite play_puzzle_unfold. cbn [Console.stdin].
  rewrite Hrun. rewrite Z.add_0_l, Hs.
  cbn [Console.stdin Console.stdout]. by rewrite <- app_assoc.
Qed.

Lemma play_puzzle_accepts_game_witness :
  game_run (lit "1-32") [lit "3"; lit "-"; lit "2"] (lit "123-") 1
  ∧ ∃ spaced written,
      space_puzzle (lit "123-") = Ok spaced
      ∧ play_puzzle (lit "1-32")
          (Console.World ([lit "3"; lit "-"; lit "2"] ++ [lit "7"]) [])
        = (inl (),
           Console.World [lit "7"]
             ([] ++ written ++ solved_report spaced (Z.of_nat 1))).
Proof.
  assert (game_run (lit "1-32") [lit "3"; lit "-"; lit "2"] (lit "123-") 1)
    as Hgame.
  { apply (game_turn (lit "1-32") [lit "3"; lit "-"] (lit "2") (lit "123-")
             [] (lit "123-") 0); try reflexivity.
    - repeat constructor.
    - by apply game_over. }
  split; [exact Hgame|].
  apply (play_puzzle_accepts_game (lit "1-32") [lit "3"; lit "-"; lit "2"]
           (lit "123-") 1 [lit "7"] []).
  exact Hgame.
Defined.
